(** * mock-jack: the blackjack rules engine of [internal/game/mockjack.go]

    A shallow embedding of the engine (cards and their display, hand scoring,
    the shoe with its Fisher-Yates shuffle, and the deal / hit / stand /
    resolution state machine), followed by the properties established about
    it.

    Conventions.
    - Go's [int] is modelled as [Z] with the 64-bit two's-complement
      wrap-around written out ([Int.wrap]); every [+], [-], [++] and [--] of
      the source goes through it.
    - [Suit] and [Rank] are Go integer types with named constants; they are
      kept as [Z], and the cards the engine itself creates are characterised
      by [valid_card].
    - A run-time panic of Go (index out of range) is the outcome [Panicked];
      the only unbounded loop of the engine (the dealer's draw loop) is run
      with fuel, and [OutOfFuel] is a third outcome, distinct from both a
      result and a panic.
    - The random source of a deck is a tape of integers: [Intn n] reads the
      next entry and reduces it into [0, n).  Every sequence of answers the
      real generator can give is the behaviour of some tape. *)

From Stdlib Require Import ZArith Lia Bool String Ascii List Permutation.
From stdpp Require Import base numbers list strings pretty gmap.

Local Open Scope Z_scope.

(* ===================================================================== *)
(** ** Machine integers *)
(* ===================================================================== *)

Module Int.

Definition min_int : Z := - 2 ^ 63.
Definition max_int : Z := 2 ^ 63 - 1.

(** Reduction of a mathematical integer to the signed 64-bit range. *)
Definition wrap (z : Z) : Z := (z + 2 ^ 63) mod 2 ^ 64 - 2 ^ 63.

Definition add (x y : Z) : Z := wrap (x + y).
Definition sub (x y : Z) : Z := wrap (x - y).

Definition in_range (z : Z) : Prop := min_int <= z <= max_int.

End Int.

(* ===================================================================== *)
(** ** Cards *)
(* ===================================================================== *)

Inductive State : Type := WaitingDeal | PlayerTurn | DealerTurn | RoundOver.

Definition State_eqb (a b : State) : bool :=
  match a, b with
  | WaitingDeal, WaitingDeal | PlayerTurn, PlayerTurn
  | DealerTurn, DealerTurn | RoundOver, RoundOver => true
  | _, _ => false
  end.

Definition Suit : Type := Z.
Definition Rank : Type := Z.

Definition Clubs : Suit := 0.
Definition Diamonds : Suit := 1.
Definition Hearts : Suit := 2.
Definition Spades : Suit := 3.

Definition Ace : Rank := 1.
Definition Two : Rank := 2.
Definition Three : Rank := 3.
Definition Four : Rank := 4.
Definition Five : Rank := 5.
Definition Six : Rank := 6.
Definition Seven : Rank := 7.
Definition Eight : Rank := 8.
Definition Nine : Rank := 9.
Definition Ten : Rank := 10.
Definition Jack : Rank := 11.
Definition Queen : Rank := 12.
Definition King : Rank := 13.

(** The fields carry a trailing underscore where the source reuses the name
    of the field's type. *)
Record Card : Type := mkCard { Suit_ : Suit; Rank_ : Rank }.

Definition Card_eq_dec (a b : Card) : {a = b} + {a <> b}.
Proof. decide equality; apply Z.eq_dec. Defined.

(** The cards [reset] creates: one of the four suits, one of the thirteen
    ranks. *)
Definition valid_card (c : Card) : bool :=
  (Clubs <=? Suit_ c) && (Suit_ c <=? Spades) &&
  (Ace <=? Rank_ c) && (Rank_ c <=? King).

(* ===================================================================== *)
(** ** Hands *)
(* ===================================================================== *)

Record Hand : Type := mkHand { Cards : list Card }.

Definition Clear (h : Hand) : Hand := {| Cards := [] |}.
Definition Add (h : Hand) (c : Card) : Hand := {| Cards := Cards h ++ [c] |}.

(** Body of the first [for ... range h.Cards] of [Value], on the pair
    [(total, aces)]. *)
Definition score_step (acc : Z * Z) (card : Card) : Z * Z :=
  let '(total, aces) := acc in
  if Rank_ card =? Ace then (Int.add total 11, Int.add aces 1)
  else if Ten <=? Rank_ card then (Int.add total 10, aces)
  else (Int.add total (Rank_ card), aces).

(** [for total > 21 && aces > 0 { total -= 10; aces-- }].  Each iteration
    decrements [aces] and the guard asks for [aces > 0], so the loop runs at
    most [aces] times: the counter [n] is started at that bound
    ([demote_exits] shows that the guard is false when it is used up). *)
Fixpoint demote (n : nat) (total aces : Z) : Z * Z :=
  match n with
  | O => (total, aces)
  | S n' =>
      if (total >? 21) && (aces >? 0)
      then demote n' (Int.sub total 10) (Int.sub aces 1)
      else (total, aces)
  end.

(** Body of the second [for ... range h.Cards] of [Value], on the pair
    [(hard, aceCount)]. *)
Definition hard_step (acc : Z * Z) (card : Card) : Z * Z :=
  let '(hard, aceCount) := acc in
  if Rank_ card =? Ace then (Int.add hard 1, Int.add aceCount 1)
  else if Ten <=? Rank_ card then (Int.add hard 10, aceCount)
  else (Int.add hard (Rank_ card), aceCount).

(** The state of [Value] when its demotion loop has been left:
    the running total and the number of aces still counted as 11. *)
Definition Value_demoted (h : Hand) : Z * Z :=
  let '(total, aces) := fold_left score_step (Cards h) (0, 0) in
  demote (Z.to_nat aces) total aces.

Definition Value (h : Hand) : Z * bool :=
  let '(total, _) := Value_demoted h in
  let '(hard, aceCount) := fold_left hard_step (Cards h) (0, 0) in
  let isSoft := (aceCount >? 0) && (Int.add hard 10 <=? 21) in
  (total, isSoft).

Definition best (h : Hand) : Z := fst (Value h).
Definition isSoft (h : Hand) : bool := snd (Value h).

(** *** Reference quantities, in unbounded arithmetic *)

(** Points of a card with an ace as 1. *)
Definition hard_points (c : Card) : Z :=
  if Rank_ c =? Ace then 1 else if Ten <=? Rank_ c then 10 else Rank_ c.

Definition is_ace (c : Card) : bool := Rank_ c =? Ace.

Fixpoint hard_total (cs : list Card) : Z :=
  match cs with
  | [] => 0
  | c :: cs' => hard_points c + hard_total cs'
  end.

Fixpoint ace_count (cs : list Card) : Z :=
  match cs with
  | [] => 0
  | c :: cs' => (if is_ace c then 1 else 0) + ace_count cs'
  end.

(** A hand the scoring is exact on: valid cards, and few enough of them that
    eleven points per card stay inside an [int].  (Any hand that fits in
    memory qualifies: a [Card] takes 16 bytes.) *)
Definition sound_hand (h : Hand) : bool :=
  forallb valid_card (Cards h) &&
  (11 * Z.of_nat (length (Cards h)) <=? Int.max_int).

(** *** The scoring as the specification words it *)

(** Sum of the cards that are not aces, ten and above counting 10. *)
Fixpoint non_ace_sum (cs : list Card) : Z :=
  match cs with
  | [] => 0
  | c :: cs' =>
      (if is_ace c then 0 else if Ten <=? Rank_ c then 10 else Rank_ c)
      + non_ace_sum cs'
  end.

(** Take 10 off once per ace still at 11 while the total exceeds 21;
    returns the total and the aces left at 11. *)
Fixpoint settle (soft_aces : nat) (total : Z) : Z * nat :=
  match soft_aces with
  | O => (total, O)
  | S k => if 21 <? total then settle k (total - 10) else (total, soft_aces)
  end.

Definition demotion_result (h : Hand) : Z * nat :=
  let aces := Z.to_nat (ace_count (Cards h)) in
  settle aces (non_ace_sum (Cards h) + 11 * Z.of_nat aces).

Definition best_by_demotion (h : Hand) : Z := fst (demotion_result h).

(** "hard + 10 when the hand has an ace and hard + 10 <= 21, hard otherwise". *)
Definition best_by_rule (h : Hand) : Z :=
  let hard := hard_total (Cards h) in
  if existsb is_ace (Cards h) && (hard + 10 <=? 21) then hard + 10 else hard.

(** "at least one ace AND hard total + 10 <= 21". *)
Definition soft_by_rule (h : Hand) : bool :=
  existsb is_ace (Cards h) && (hard_total (Cards h) + 10 <=? 21).

(** "at least one ace remains counted as 11 after the demotion loop",
    read off the loop of the code. *)
Definition soft_by_loop (h : Hand) : bool := 0 <? snd (Value_demoted h).

(** "best exceeds the hard total". *)
Definition soft_by_excess (h : Hand) : bool := hard_total (Cards h) <? best h.

(* ===================================================================== *)
(** ** Outcomes of a call *)
(* ===================================================================== *)

Inductive outcome (A : Type) : Type :=
| Done (a : A)
| Panicked
| OutOfFuel.

Arguments Done {A} a.
Arguments Panicked {A}.
Arguments OutOfFuel {A}.

Definition bind {A B : Type} (m : outcome A) (k : A -> outcome B) : outcome B :=
  match m with
  | Done a => k a
  | Panicked => Panicked
  | OutOfFuel => OutOfFuel
  end.

Notation "'do' x <- e 'in' k" := (bind e (fun x => k))
  (at level 10, x name, e at level 100, k at level 200, only parsing).

(* ===================================================================== *)
(** ** The shoe *)
(* ===================================================================== *)

(** The random source: a tape of integers and a read position. *)
Record Rand : Type := mkRand { tape : nat -> Z; pos : nat }.

(** [rng.Intn(n)]: the next tape entry reduced into [0, n); it panics when
    [n <= 0]. *)
Definition Intn (r : Rand) (n : Z) : outcome (Z * Rand) :=
  if n <=? 0 then Panicked
  else Done (tape r (pos r) mod n, {| tape := tape r; pos := S (pos r) |}).

Record Deck : Type := mkDeck { cards : list Card; rng : Rand; shoe : Z }.

(** [len(cs)] as an [int]. *)
Definition len (cs : list Card) : Z := Z.of_nat (length cs).

(** [cs[i]] read: an index outside [0, len) panics. *)
Definition at_index (cs : list Card) (i : Z) : outcome Card :=
  if 0 <=? i
  then match cs !! Z.to_nat i with
       | Some c => Done c
       | None => Panicked
       end
  else Panicked.

(** [cs[i] = c]: an index outside [0, len) panics. *)
Definition set_index (cs : list Card) (i : Z) (c : Card) : outcome (list Card) :=
  if (0 <=? i) && (i <? len cs)
  then Done (<[Z.to_nat i := c]> cs)
  else Panicked.

(** [cs[i], cs[j] = cs[j], cs[i]]: both reads, then both writes. *)
Definition swap (cs : list Card) (i j : Z) : outcome (list Card) :=
  do cj <- at_index cs j in
  do ci <- at_index cs i in
  do cs1 <- set_index cs i cj in
  set_index cs1 j ci.

(** [for i := n - 1; i > 0; i-- { j := Intn(i + 1); swap i j }], by recursion
    on the loop index. *)
Fixpoint shuffle_from (i : nat) (cs : list Card) (r : Rand)
  : outcome (list Card * Rand) :=
  match i with
  | O => Done (cs, r)
  | S i' =>
      do picked <- Intn r (Int.add (Z.of_nat i) 1) in
      let '(j, r') := picked in
      do cs' <- swap cs (Z.of_nat i) j in
      shuffle_from i' cs' r'
  end.

Definition shuffle (cs : list Card) (r : Rand) : outcome (list Card * Rand) :=
  let n := len cs in
  shuffle_from (Z.to_nat (Int.sub n 1)) cs r.

(** [for s := Clubs; s <= Spades; s++] and [for r := Ace; r <= King; r++]. *)
Definition all_suits : list Suit := seqZ Clubs (Spades - Clubs + 1).
Definition all_ranks : list Rank := seqZ Ace (King - Ace + 1).

(** The three nested loops of [reset]: for each suit, for each rank,
    [shoe] appended copies ([for i := 0; i < d.shoe; i++]). *)
Definition fresh_cards (shoe : Z) : list Card :=
  flat_map (fun s =>
    flat_map (fun r => repeat {| Suit_ := s; Rank_ := r |} (Z.to_nat shoe))
             all_ranks)
    all_suits.

Definition reset (d : Deck) : outcome Deck :=
  do shuffled <- shuffle (fresh_cards (shoe d)) (rng d) in
  let '(cs, r) := shuffled in
  Done {| cards := cs; rng := r; shoe := shoe d |}.

(** [NewDeck]; the time-seeded generator is the argument [r]. *)
Definition NewDeck (shoe : Z) (r : Rand) : outcome Deck :=
  let shoe := if shoe <? 1 then 1 else shoe in
  reset {| cards := []; rng := r; shoe := shoe |}.

(** [if len(d.cards) == 0 { d.reset() }], the first statement of [Draw]. *)
Definition refill (d : Deck) : outcome Deck :=
  if len (cards d) =? 0 then reset d else Done d.

Definition Draw (d : Deck) : outcome (Card * Deck) :=
  do d <- refill d in
  do card <- at_index (cards d) (Int.sub (len (cards d)) 1) in
  Done (card,
        {| cards := take (Z.to_nat (Int.sub (len (cards d)) 1)) (cards d);
           rng := rng d; shoe := shoe d |}).

(* ===================================================================== *)
(** ** The game *)
(* ===================================================================== *)

Record Game : Type := mkGame {
  Deck_ : Deck;
  Player : Hand;
  Dealer : Hand;
  State_ : State;
  Result : string
}.

Definition set_Deck (g : Game) (d : Deck) : Game :=
  {| Deck_ := d; Player := Player g; Dealer := Dealer g;
     State_ := State_ g; Result := Result g |}.
Definition set_Player (g : Game) (h : Hand) : Game :=
  {| Deck_ := Deck_ g; Player := h; Dealer := Dealer g;
     State_ := State_ g; Result := Result g |}.
Definition set_Dealer (g : Game) (h : Hand) : Game :=
  {| Deck_ := Deck_ g; Player := Player g; Dealer := h;
     State_ := State_ g; Result := Result g |}.
Definition set_State (g : Game) (s : State) : Game :=
  {| Deck_ := Deck_ g; Player := Player g; Dealer := Dealer g;
     State_ := s; Result := Result g |}.
Definition set_Result (g : Game) (r : string) : Game :=
  {| Deck_ := Deck_ g; Player := Player g; Dealer := Dealer g;
     State_ := State_ g; Result := r |}.

Definition NewGame (shoe : Z) (r : Rand) : outcome Game :=
  do d <- NewDeck shoe r in
  Done {| Deck_ := d; Player := {| Cards := [] |}; Dealer := {| Cards := [] |};
          State_ := WaitingDeal; Result := "" |}.

(** [fmt.Sprintf("%d", n)]. *)
Definition fmt_d (n : Z) : string := pretty n.

Definition finishRound (g : Game) : Game :=
  let g := set_State g RoundOver in
  let playerValue := fst (Value (Player g)) in
  let dealerValue := fst (Value (Dealer g)) in
  if playerValue >? 21 then
    set_Result g ("Player busts (" +:+ fmt_d playerValue +:+ "). Dealer wins.")
  else if dealerValue >? 21 then
    set_Result g ("Dealer busts (" +:+ fmt_d dealerValue +:+ "). Player wins!")
  else if playerValue >? dealerValue then
    set_Result g ("Player wins! (" +:+ fmt_d playerValue +:+ " vs "
                  +:+ fmt_d dealerValue +:+ ")")
  else if playerValue <? dealerValue then
    set_Result g ("Dealer wins. (" +:+ fmt_d dealerValue +:+ " vs "
                  +:+ fmt_d playerValue +:+ ")")
  else
    set_Result g ("Push. (" +:+ fmt_d playerValue +:+ " vs "
                  +:+ fmt_d dealerValue +:+ ")").

(** [g.Player.Add(g.Deck.Draw())] and [g.Dealer.Add(g.Deck.Draw())]. *)
Definition player_draws (g : Game) : outcome Game :=
  do drawn <- Draw (Deck_ g) in
  let '(c, d) := drawn in
  Done (set_Player (set_Deck g d) (Add (Player g) c)).

Definition dealer_draws (g : Game) : outcome Game :=
  do drawn <- Draw (Deck_ g) in
  let '(c, d) := drawn in
  Done (set_Dealer (set_Deck g d) (Add (Dealer g) c)).

Definition Deal (g : Game) : outcome Game :=
  let g := set_Player g (Clear (Player g)) in
  let g := set_Dealer g (Clear (Dealer g)) in
  let g := set_Result g "" in
  let g := set_State g PlayerTurn in
  do g <- player_draws g in
  do g <- dealer_draws g in
  do g <- player_draws g in
  do g <- dealer_draws g in
  let playerValue := fst (Value (Player g)) in
  let dealerValue := fst (Value (Dealer g)) in
  if (playerValue =? 21) || (dealerValue =? 21)
  then Done (finishRound g)
  else Done g.

Definition PlayerHit (g : Game) : outcome Game :=
  if negb (State_eqb (State_ g) PlayerTurn) then Done g
  else
    do g <- player_draws g in
    let playerValue := fst (Value (Player g)) in
    if playerValue >? 21 then Done (finishRound g) else Done g.

Definition isDealerSoft (g : Game) : bool := snd (Value (Dealer g)).

(** The guard of the dealer's loop:
    [dealerValue < 17 || (dealerValue == 17 && g.isDealerSoft())]. *)
Definition dealer_must_draw (g : Game) : bool :=
  let dealerValue := fst (Value (Dealer g)) in
  (dealerValue <? 17) || ((dealerValue =? 17) && isDealerSoft g).

(** The [for { ... }] of [PlayerStand]; one unit of fuel per evaluation of
    the guard. *)
Fixpoint dealer_loop (fuel : nat) (g : Game) : outcome Game :=
  match fuel with
  | O => OutOfFuel
  | S fuel' =>
      if dealer_must_draw g
      then do g <- dealer_draws g in dealer_loop fuel' g
      else Done g
  end.

Definition PlayerStand (fuel : nat) (g : Game) : outcome Game :=
  if negb (State_eqb (State_ g) PlayerTurn) then Done g
  else
    let g := set_State g DealerTurn in
    do g <- dealer_loop fuel g in
    Done (finishRound g).

(** Fuel that is always enough for the dealer's loop on a sound game
    ([PlayerStand_runs]). *)
Definition stand_fuel : nat := 18.

(** *** Reachable games and their invariant *)

(** The states the exported operations can produce, from any random tape and
    any shoe size whose cards can be held in a slice. *)
Inductive reachable : Game -> Prop :=
| reach_new shoe r g :
    52 * shoe <= Int.max_int -> NewGame shoe r = Done g -> reachable g
| reach_deal g g' :
    reachable g -> Deal g = Done g' -> reachable g'
| reach_hit g g' :
    reachable g -> PlayerHit g = Done g' -> reachable g'
| reach_stand fuel g g' :
    reachable g -> PlayerStand fuel g = Done g' -> reachable g'.

(** A shoe count [NewDeck] can leave in a deck, for which the [52 * shoe]
    cards can be the length of a slice. *)
Definition shoe_ok (shoe : Z) : bool :=
  (1 <=? shoe) && (52 * shoe <=? Int.max_int).

(** A deck as [NewDeck] and [Draw] keep it: a good shoe count and at most a
    full shoe of cards. *)
Definition deck_ok (d : Deck) : bool :=
  shoe_ok (shoe d) && (len (cards d) <=? 52 * shoe d).

(** A deck that is [deck_ok] and holds only cards that [reset] creates. *)
Definition sound_deck (d : Deck) : bool :=
  deck_ok d && forallb valid_card (cards d).

(** What every reachable game satisfies ([reachable_sound]): a sound deck,
    short hands of valid cards, and during the player's turn an empty result
    and a player who has not bust. *)
Definition sound_game (g : Game) : bool :=
  sound_deck (Deck_ g) &&
  forallb valid_card (Cards (Player g)) && (len (Cards (Player g)) <=? 22) &&
  forallb valid_card (Cards (Dealer g)) && (len (Cards (Dealer g)) <=? 18) &&
  (if State_eqb (State_ g) PlayerTurn
   then String.eqb (Result g) "" && (fst (Value (Player g)) <=? 21)
   else true).

(** *** Substrings *)

(** [contains s sub]: [sub] occurs in [s] as a contiguous substring. *)
Fixpoint contains (s sub : string) : bool :=
  String.prefix sub s ||
  match s with
  | EmptyString => false
  | String _ s' => contains s' sub
  end.

(** *** The dealer's policy and the result message, as the specification
    words them *)

(** "value below 17, or equal to 17 and the hand is soft". *)
Definition must_draw (h : Hand) : bool :=
  (best h <? 17) || ((best h =? 17) && isSoft h).

(** The cards that [n] successive calls of [Draw] return, first to last. *)
Fixpoint draw_many (n : nat) (d : Deck) : outcome (list Card * Deck) :=
  match n with
  | O => Done ([], d)
  | S n' =>
      do first <- Draw d in
      let '(c, d1) := first in
      do rest <- draw_many n' d1 in
      let '(cs, d2) := rest in
      Done (c :: cs, d2)
  end.

(** The message for a player value [p] and a dealer value [d]. *)
Definition round_message (p d : Z) : string :=
  if 21 <? p then "Player busts (" +:+ fmt_d p +:+ "). Dealer wins."
  else if 21 <? d then "Dealer busts (" +:+ fmt_d d +:+ "). Player wins!"
  else if d <? p then
    "Player wins! (" +:+ fmt_d p +:+ " vs " +:+ fmt_d d +:+ ")"
  else if p <? d then
    "Dealer wins. (" +:+ fmt_d d +:+ " vs " +:+ fmt_d p +:+ ")"
  else "Push. (" +:+ fmt_d p +:+ " vs " +:+ fmt_d d +:+ ")".

(* ===================================================================== *)
(** ** Sample inputs *)
(* ===================================================================== *)

(** A random tape, and an emptied one-deck shoe on it. *)
Definition sample_tape : Rand :=
  {| tape := fun n => Z.of_nat n * 7919 + 13; pos := 0 |}.

Definition empty_deck : Deck :=
  {| cards := []; rng := sample_tape; shoe := 1 |}.

Definition card (s : Suit) (r : Rank) : Card := {| Suit_ := s; Rank_ := r |}.

(** A deck whose remaining cards are [cs], the last one on top. *)
Definition deck_of (cs : list Card) : Deck :=
  {| cards := cs; rng := sample_tape; shoe := 1 |}.

Definition game_of (d : Deck) (player dealer : list Card) (st : State)
    (res : string) : Game :=
  {| Deck_ := d; Player := {| Cards := player |};
     Dealer := {| Cards := dealer |}; State_ := st; Result := res |}.

(** A game resolved with a standing player at 20 and a dealer bust at 22. *)
Definition dealer_bust_game : Game :=
  game_of empty_deck
    [card Spades King; card Hearts Queen]
    [card Clubs Ten; card Diamonds Six; card Spades Six]
    DealerTurn "".

(** A deck about to deal an ace and a king to each side. *)
Definition double_natural_deck : Deck :=
  deck_of [card Clubs King; card Hearts King; card Clubs Ace; card Hearts Ace].

(** A finished round that is dealt again from the middle of a shoe. *)
Definition finished_game : Game :=
  game_of (deck_of [card Spades Two; card Clubs Nine; card Hearts Five;
                    card Diamonds Seven; card Spades Ten])
    [card Spades King; card Hearts Queen]
    [card Clubs Ten; card Diamonds Six; card Spades Six]
    RoundOver "Dealer busts (22). Player wins!".

(** The player at 16, a six on top of the deck. *)
Definition hit_to_22_game : Game :=
  game_of (deck_of [card Spades Two; card Clubs Six])
    [card Spades King; card Hearts Six] [card Clubs Ten; card Diamonds Seven]
    PlayerTurn "".

(** The player at 16, a five on top of the deck. *)
Definition hit_to_21_game : Game :=
  game_of (deck_of [card Spades Two; card Clubs Five])
    [card Spades King; card Hearts Six] [card Clubs Ten; card Diamonds Seven]
    PlayerTurn "".

(** A two-card 21 for the player against a three-card 21 for the dealer. *)
Definition natural_vs_sevens_game : Game :=
  game_of empty_deck
    [card Spades Ace; card Hearts King]
    [card Clubs Seven; card Diamonds Seven; card Spades Seven]
    DealerTurn "".

(** The player stands on 16; the dealer shows a hard 16, a soft 17 or a
    hard 17, over the same deck. *)
Definition stand_deck : Deck :=
  deck_of [card Spades Two; card Clubs Nine; card Hearts Five;
           card Diamonds Three; card Spades Nine].

Definition dealer_hard_16_game : Game :=
  game_of stand_deck [card Spades King; card Hearts Six]
    [card Clubs Ten; card Diamonds Six] PlayerTurn "".

Definition dealer_soft_17_game : Game :=
  game_of stand_deck [card Spades King; card Hearts Six]
    [card Clubs Ace; card Diamonds Six] PlayerTurn "".

Definition dealer_hard_17_game : Game :=
  game_of stand_deck [card Spades King; card Hearts Six]
    [card Clubs Ten; card Diamonds Seven] PlayerTurn "".

(** A soft 17 and a nine. *)
Definition soft_17_hand : Hand :=
  {| Cards := [card Clubs Ace; card Diamonds Six] |}.

(* ===================================================================== *)
(** ** Display *)
(* ===================================================================== *)

(** The two map literals of [Card.String]. *)
Definition rank_names : gmap Z string :=
  list_to_map
    [ (Ace, "A"); (Two, "2"); (Three, "3"); (Four, "4"); (Five, "5");
      (Six, "6"); (Seven, "7"); (Eight, "8"); (Nine, "9"); (Ten, "10");
      (Jack, "J"); (Queen, "Q"); (King, "K") ].

Definition suit_names : gmap Z string :=
  list_to_map
    [ (Clubs, "♣"); (Diamonds, "♦"); (Hearts, "♥"); (Spades, "♠") ].

(** [m[k]] on a Go map with string values: a missing key reads as the
    empty string. *)
Definition map_index (m : gmap Z string) (k : Z) : string :=
  default "" (m !! k).

Definition Card_String (c : Card) : string :=
  let rank := map_index rank_names (Rank_ c) in
  let suit := map_index suit_names (Suit_ c) in
  rank +:+ suit.

(** [for i, c := range h.Cards { if i > 0 { out += " " }; out += c.String() }],
    from index [i] and the text [out] built so far. *)
Fixpoint String_loop (i : Z) (out : string) (cs : list Card) : string :=
  match cs with
  | [] => out
  | c :: cs' =>
      let out := if i >? 0 then out +:+ " " else out in
      let out := out +:+ Card_String c in
      String_loop (i + 1) out cs'
  end.

Definition Hand_String (h : Hand) : string :=
  if len (Cards h) =? 0 then "<empty>"
  else String_loop 0 "" (Cards h).

(** What the state of a game says about the rest of it ([reachable_round]):
    before the first deal nothing has been touched; during the player's turn
    the result is empty, the dealer holds two cards short of 21 and the
    player at least two cards and at most 21; a finished round carries the
    message of its two hands; and no game is left in [DealerTurn]. *)
Definition round_inv (g : Game) : Prop :=
  match State_ g with
  | WaitingDeal =>
      Cards (Player g) = [] /\ Cards (Dealer g) = [] /\ Result g = ""
  | PlayerTurn =>
      Result g = "" /\
      length (Cards (Dealer g)) = 2%nat /\ best (Dealer g) < 21 /\
      (2 <= length (Cards (Player g)))%nat /\ best (Player g) <= 21
  | DealerTurn => False
  | RoundOver =>
      Result g = round_message (best (Player g)) (best (Dealer g)) /\
      (2 <= length (Cards (Player g)))%nat /\
      (2 <= length (Cards (Dealer g)))%nat
  end.

(** [n] calls of [PlayerHit] in a row. *)
Fixpoint hit_many (n : nat) (g : Game) : outcome Game :=
  match n with
  | O => Done g
  | S n' => do g <- PlayerHit g in hit_many n' g
  end.

(* ===================================================================== *)
(** * Properties *)
(* ===================================================================== *)

(** ** Machine integers *)

Lemma wrap_id z : Int.in_range z -> Int.wrap z = z.
Proof.
  unfold Int.in_range, Int.min_int, Int.max_int, Int.wrap. intros Hz.
  rewrite Z.mod_small by lia. lia.
Qed.

Lemma add_exact x y : Int.in_range (x + y) -> Int.add x y = x + y.
Proof. apply wrap_id. Qed.

Lemma sub_exact x y : Int.in_range (x - y) -> Int.sub x y = x - y.
Proof. apply wrap_id. Qed.

Lemma max_int_val : Int.max_int = 9223372036854775807.
Proof. reflexivity. Qed.

Lemma min_int_val : Int.min_int = -9223372036854775808.
Proof. reflexivity. Qed.

(** Closes the side conditions "this sum stays in range". *)
Ltac in_range :=
  unfold Int.in_range in *; rewrite ?max_int_val, ?min_int_val in *; lia.

(** ** Scoring *)

Lemma valid_card_rank c : valid_card c = true -> 1 <= Rank_ c <= 13.
Proof. unfold valid_card, Ace, King. rewrite !andb_true_iff. lia. Qed.

Lemma hard_points_bounds c :
  valid_card c = true -> 1 <= hard_points c <= 10.
Proof.
  intros H%valid_card_rank. unfold hard_points, Ace, Ten.
  destruct (Rank_ c =? 1) eqn:E1; [lia|].
  destruct (10 <=? Rank_ c) eqn:E2; lia.
Qed.

Lemma ace_count_bounds cs : 0 <= ace_count cs <= len cs.
Proof.
  unfold len. induction cs as [|c cs IH]; simpl; [lia|].
  destruct (is_ace c); lia.
Qed.

Lemma hard_total_bounds cs :
  forallb valid_card cs = true ->
  len cs <= hard_total cs <= 10 * len cs /\
  ace_count cs <= hard_total cs <= 11 * len cs - 10 * ace_count cs.
Proof.
  unfold len. induction cs as [|c cs IH]; simpl; [lia|].
  intros [Hc Hcs]%andb_true_iff. specialize (IH Hcs).
  pose proof (hard_points_bounds c Hc) as Hp. revert Hp.
  unfold hard_points, is_ace. destruct (Rank_ c =? Ace); lia.
Qed.

Lemma has_ace_count cs : existsb is_ace cs = (0 <? ace_count cs).
Proof.
  induction cs as [|c cs IH]; simpl; [reflexivity|].
  pose proof (ace_count_bounds cs). rewrite IH.
  destruct (is_ace c); simpl; [symmetry; apply Z.ltb_lt; lia | reflexivity].
Qed.

(** The first loop of [Value] computes the all-aces-at-11 total and the
    number of aces, without overflow. *)
Lemma score_fold cs : forall total aces,
  forallb valid_card cs = true ->
  0 <= total -> 0 <= aces ->
  total + 11 * len cs <= Int.max_int -> aces + len cs <= Int.max_int ->
  fold_left score_step cs (total, aces) =
  (total + hard_total cs + 10 * ace_count cs, aces + ace_count cs).
Proof.
  unfold len. induction cs as [|c cs IH]; intros total aces Hv Ht Ha Hbt Hba.
  - simpl. f_equal; lia.
  - simpl in Hv. apply andb_true_iff in Hv as [Hc Hcs].
    pose proof (valid_card_rank c Hc) as Hr.
    rewrite length_cons, Nat2Z.inj_succ in Hbt, Hba.
    cbn [fold_left hard_total ace_count]. unfold score_step at 2.
    unfold hard_points, is_ace, Ace, Ten in *.
    destruct (Rank_ c =? 1) eqn:E1.
    + rewrite !add_exact by in_range.
      rewrite IH by (try assumption; lia). f_equal; lia.
    + destruct (10 <=? Rank_ c) eqn:E2.
      * rewrite add_exact by in_range.
        rewrite IH by (try assumption; lia). f_equal; lia.
      * apply Z.leb_gt in E2. rewrite add_exact by in_range.
        rewrite IH by (try assumption; lia). f_equal; lia.
Qed.

(** The second loop of [Value] computes the all-aces-at-1 total and the
    number of aces, without overflow. *)
Lemma hard_fold cs : forall hard aces,
  forallb valid_card cs = true ->
  0 <= hard -> 0 <= aces ->
  hard + 11 * len cs <= Int.max_int -> aces + len cs <= Int.max_int ->
  fold_left hard_step cs (hard, aces) =
  (hard + hard_total cs, aces + ace_count cs).
Proof.
  unfold len. induction cs as [|c cs IH]; intros hard aces Hv Ht Ha Hbt Hba.
  - simpl. f_equal; lia.
  - simpl in Hv. apply andb_true_iff in Hv as [Hc Hcs].
    pose proof (valid_card_rank c Hc) as Hr.
    rewrite length_cons, Nat2Z.inj_succ in Hbt, Hba.
    cbn [fold_left hard_total ace_count]. unfold hard_step at 2.
    unfold hard_points, is_ace, Ace, Ten in *.
    destruct (Rank_ c =? 1) eqn:E1.
    + rewrite !add_exact by in_range.
      rewrite IH by (try assumption; lia). f_equal; lia.
    + destruct (10 <=? Rank_ c) eqn:E2.
      * rewrite add_exact by in_range.
        rewrite IH by (try assumption; lia). f_equal; lia.
      * apply Z.leb_gt in E2. rewrite add_exact by in_range.
        rewrite IH by (try assumption; lia). f_equal; lia.
Qed.

(** The counter of [demote] is enough: started at [aces], the loop is left
    because its guard is false, not because the counter ran out. *)
Lemma demote_exits n : forall total aces,
  aces = Z.of_nat n -> aces <= Int.max_int ->
  let '(total', aces') := demote n total aces in
  (total' >? 21) && (aces' >? 0) = false.
Proof.
  induction n as [|n IH]; intros total aces Ha Hb.
  - subst aces. simpl. apply andb_false_r.
  - cbn [demote]. destruct ((total >? 21) && (aces >? 0)) eqn:G; [|exact G].
    apply IH.
    + rewrite sub_exact by in_range. lia.
    + rewrite sub_exact by in_range. lia.
Qed.

(** On a total made of [hard] plus 10 per ace, with at least one point per
    ace in [hard], the loop ends with one ace at 11 when that fits under 21,
    and with none otherwise. *)
Lemma demote_valid n : forall aces hard,
  aces = Z.of_nat n -> aces <= hard -> hard + 10 * aces <= Int.max_int ->
  demote n (hard + 10 * aces) aces =
  if (0 <? aces) && (hard + 10 <=? 21) then (hard + 10, 1) else (hard, 0).
Proof.
  induction n as [|n IH]; intros aces hard Ha Hh Hb.
  - subst aces. simpl. f_equal. lia.
  - cbn [demote]. rewrite !Z.gtb_ltb.
    assert (0 < aces) as Hpos by lia.
    destruct (21 <? hard + 10 * aces) eqn:G; cbn [andb].
    + apply Z.ltb_lt in G. apply Z.ltb_lt in Hpos as Hpos'. rewrite Hpos'.
      rewrite !sub_exact by in_range.
      replace (hard + 10 * aces - 10) with (hard + 10 * (aces - 1)) by lia.
      rewrite IH by lia. cbn [andb].
      destruct (0 <? aces - 1) eqn:E; cbn [andb]; [reflexivity|].
      apply Z.ltb_ge in E.
      destruct (Z.leb (hard + 10) 21) eqn:F; [apply Z.leb_le in F; lia|reflexivity].
    + apply Z.ltb_ge in G. assert (aces = 1) as -> by lia.
      replace (hard + 10 * 1) with (hard + 10) by lia.
      assert ((hard + 10 <=? 21) = true) as -> by (apply Z.leb_le; lia).
      reflexivity.
Qed.

Lemma settle_valid n : forall hard,
  Z.of_nat n <= hard ->
  settle n (hard + 10 * Z.of_nat n) =
  if (0 <? Z.of_nat n) && (hard + 10 <=? 21)
  then (hard + 10, 1%nat) else (hard, 0%nat).
Proof.
  induction n as [|n IH]; intros hard Hh.
  - simpl. f_equal. lia.
  - cbn [settle].
    destruct (21 <? hard + 10 * Z.of_nat (S n)) eqn:G.
    + apply Z.ltb_lt in G.
      replace (hard + 10 * Z.of_nat (S n) - 10)
        with (hard + 10 * Z.of_nat n) by lia.
      rewrite IH by lia.
      assert ((0 <? Z.of_nat (S n)) = true) as -> by (apply Z.ltb_lt; lia).
      cbn [andb].
      destruct (0 <? Z.of_nat n) eqn:E; cbn [andb]; [reflexivity|].
      apply Z.ltb_ge in E.
      destruct (Z.leb (hard + 10) 21) eqn:F; [apply Z.leb_le in F; lia|reflexivity].
    + apply Z.ltb_ge in G. assert (n = 0%nat) as -> by lia.
      change (Z.of_nat 1) with 1 in *.
      replace (hard + 10 * 1) with (hard + 10) by lia.
      assert ((hard + 10 <=? 21) = true) as -> by (apply Z.leb_le; lia).
      reflexivity.
Qed.

Lemma non_ace_sum_hard cs : non_ace_sum cs + ace_count cs = hard_total cs.
Proof.
  induction cs as [|c cs IH]; simpl; [reflexivity|].
  unfold hard_points, is_ace. destruct (Rank_ c =? Ace); lia.
Qed.

Lemma sound_hand_inv h :
  sound_hand h = true ->
  forallb valid_card (Cards h) = true /\ 11 * len (Cards h) <= Int.max_int.
Proof.
  unfold sound_hand, len. intros [? ?%Z.leb_le]%andb_true_iff. auto.
Qed.

(** The loop state of [Value] on a sound hand. *)
Lemma Value_demoted_exact h :
  sound_hand h = true ->
  Value_demoted h = (best_by_rule h, if soft_by_rule h then 1 else 0).
Proof.
  intros [Hv Hb]%sound_hand_inv. unfold Value_demoted.
  pose proof (ace_count_bounds (Cards h)) as Ha.
  pose proof (hard_total_bounds _ Hv) as [Hh Hah].
  rewrite score_fold by (try assumption; in_range).
  rewrite !Z.add_0_l, demote_valid by (in_range || (rewrite Z2Nat.id; lia)).
  unfold best_by_rule, soft_by_rule. rewrite has_ace_count.
  destruct ((0 <? ace_count (Cards h)) && (hard_total (Cards h) + 10 <=? 21));
    reflexivity.
Qed.

(** [Value] on a sound hand, in closed form. *)
Lemma Value_exact h :
  sound_hand h = true -> Value h = (best_by_rule h, soft_by_rule h).
Proof.
  intros Hs. unfold Value. rewrite (Value_demoted_exact h Hs).
  apply sound_hand_inv in Hs as [Hv Hb].
  pose proof (ace_count_bounds (Cards h)) as Ha.
  pose proof (hard_total_bounds _ Hv) as [Hh Hah].
  rewrite hard_fold by (try assumption; in_range).
  rewrite !Z.add_0_l, Z.gtb_ltb, add_exact by in_range.
  unfold soft_by_rule. rewrite has_ace_count. reflexivity.
Qed.

Lemma demotion_result_exact h :
  forallb valid_card (Cards h) = true ->
  demotion_result h = (best_by_rule h, if soft_by_rule h then 1%nat else 0%nat).
Proof.
  intros Hv. unfold demotion_result.
  pose proof (ace_count_bounds (Cards h)) as Ha.
  pose proof (hard_total_bounds _ Hv) as [Hh Hah].
  pose proof (non_ace_sum_hard (Cards h)) as Hn.
  replace (non_ace_sum (Cards h) + 11 * Z.of_nat (Z.to_nat (ace_count (Cards h))))
    with (hard_total (Cards h) + 10 * Z.of_nat (Z.to_nat (ace_count (Cards h))))
    by lia.
  rewrite settle_valid by lia. rewrite Z2Nat.id by lia.
  unfold best_by_rule, soft_by_rule. rewrite has_ace_count.
  destruct ((0 <? ace_count (Cards h)) && (hard_total (Cards h) + 10 <=? 21));
    reflexivity.
Qed.

(** C2. On every hand of valid cards, [Value] returns as [best] the total
    obtained by summing the non-ace cards (ten and above as 10), counting
    every ace as 11 and taking 10 off once per ace while the total exceeds
    21; that is, hard + 10 when the hand has an ace and hard + 10 <= 21, and
    hard otherwise; and a hand of exactly two aces is worth (12, true). *)
Theorem Value_best_spec (h : Hand) :
  sound_hand h = true ->
  best h = best_by_demotion h /\
  best h = best_by_rule h /\
  (forall s1 s2,
     Cards h = [{| Suit_ := s1; Rank_ := Ace |}; {| Suit_ := s2; Rank_ := Ace |}] ->
     Value h = (12, true)).
Proof.
  intros Hs. pose proof (Value_exact h Hs) as HV.
  pose proof (sound_hand_inv h Hs) as [Hv _].
  unfold best, best_by_demotion.
  rewrite HV, (demotion_result_exact h Hv). cbn [fst].
  repeat split. intros s1 s2 Hc. unfold best_by_rule, soft_by_rule.
  rewrite Hc. reflexivity.
Qed.

Lemma Value_best_spec_witness :
  let h := {| Cards := [ {| Suit_ := Spades; Rank_ := Ace |};
                         {| Suit_ := Hearts; Rank_ := Ace |} ] |} in
  sound_hand h = true /\
  best h = best_by_demotion h /\ best h = best_by_rule h /\ Value h = (12, true).
Proof.
  intros h.
  destruct (Value_best_spec h eq_refl) as (H1 & H2 & H3).
  split; [reflexivity|].
  split; [exact H1|]. split; [exact H2|]. exact (H3 Spades Hearts eq_refl).
Defined.

(** C3. On every hand of valid cards, whatever the number of aces, the
    soft flag computed by the second pass of [Value] (an ace, and hard total
    + 10 <= 21) is the same as "an ace is still counted as 11 when the
    demotion loop of the first pass is left", and the same as "best exceeds
    the hard total". *)
Theorem isSoft_agrees_with_demotion (h : Hand) :
  sound_hand h = true ->
  isSoft h = soft_by_rule h /\
  isSoft h = soft_by_loop h /\
  isSoft h = (0 <? snd (demotion_result h))%nat /\
  isSoft h = soft_by_excess h.
Proof.
  intros Hs. pose proof (Value_exact h Hs) as HV.
  pose proof (sound_hand_inv h Hs) as [Hv _].
  unfold isSoft, soft_by_loop, soft_by_excess, best.
  rewrite HV, (Value_demoted_exact h Hs), (demotion_result_exact h Hv).
  cbn [fst snd]. unfold best_by_rule, soft_by_rule.
  destruct (existsb is_ace (Cards h) && (hard_total (Cards h) + 10 <=? 21));
    repeat split; try reflexivity.
  - symmetry. apply Z.ltb_lt. lia.
  - symmetry. apply Z.ltb_irrefl.
Qed.

Lemma isSoft_agrees_with_demotion_witness :
  let h := {| Cards := [ {| Suit_ := Clubs; Rank_ := Ace |};
                         {| Suit_ := Diamonds; Rank_ := Ace |};
                         {| Suit_ := Hearts; Rank_ := Ace |};
                         {| Suit_ := Spades; Rank_ := Eight |} ] |} in
  sound_hand h = true /\
  isSoft h = true /\ soft_by_loop h = true /\ soft_by_excess h = true.
Proof.
  intros h.
  destruct (isSoft_agrees_with_demotion h eq_refl) as (H1 & H2 & H3 & H4).
  split; [reflexivity|].
  split; [reflexivity|].
  split; [rewrite <- H2; reflexivity | rewrite <- H4; reflexivity].
Defined.

(** ** The shoe *)

Lemma len_nonneg cs : 0 <= len cs.
Proof. unfold len. lia. Qed.

Lemma Permutation_len (cs cs' : list Card) : cs' ≡ₚ cs -> len cs' = len cs.
Proof. intros H. unfold len. now rewrite (Permutation_length H). Qed.

Lemma at_index_Done cs i :
  0 <= i < len cs ->
  exists c, at_index cs i = Done c /\ cs !! Z.to_nat i = Some c.
Proof.
  intros Hi. unfold at_index.
  assert ((0 <=? i) = true) as -> by (apply Z.leb_le; lia).
  destruct (cs !! Z.to_nat i) as [c|] eqn:E; [eauto|].
  apply lookup_ge_None in E. unfold len in Hi. lia.
Qed.

Lemma set_index_Done cs i c :
  0 <= i < len cs -> set_index cs i c = Done (<[Z.to_nat i := c]> cs).
Proof.
  intros Hi. unfold set_index.
  assert ((0 <=? i) = true) as -> by (apply Z.leb_le; lia).
  assert ((i <? len cs) = true) as -> by (apply Z.ltb_lt; lia).
  reflexivity.
Qed.

(** A swap of two positions inside the slice does not panic and permutes. *)
Lemma swap_Done cs i j :
  0 <= i < len cs -> 0 <= j < len cs ->
  exists cs', swap cs i j = Done cs' /\ cs' ≡ₚ cs.
Proof.
  intros Hi Hj. unfold swap.
  destruct (at_index_Done cs j Hj) as (cj & -> & Lj).
  destruct (at_index_Done cs i Hi) as (ci & -> & Li).
  cbn [bind]. rewrite set_index_Done by assumption. cbn [bind].
  rewrite set_index_Done by (unfold len in *; rewrite length_insert; lia).
  eexists; split; [reflexivity|].
  now apply Permutation_insert_swap.
Qed.

Lemma Intn_range r n :
  0 < n -> exists j r', Intn r n = Done (j, r') /\ 0 <= j < n.
Proof.
  intros Hn. unfold Intn.
  assert ((n <=? 0) = false) as -> by (apply Z.leb_gt; exact Hn).
  eexists _, _. split; [reflexivity|]. apply Z.mod_pos_bound. exact Hn.
Qed.

(** The Fisher-Yates loop started at an index inside the slice never
    panics, and leaves a permutation of the cards. *)
Lemma shuffle_from_Done i : forall cs r,
  (i <= pred (length cs))%nat -> len cs <= Int.max_int ->
  exists cs' r', shuffle_from i cs r = Done (cs', r') /\ cs' ≡ₚ cs.
Proof.
  induction i as [|i IH]; intros cs r Hi Hb.
  - exists cs, r. split; reflexivity.
  - cbn [shuffle_from].
    assert (Z.of_nat (S i) < len cs) as Hlt by (unfold len; lia).
    rewrite add_exact by in_range.
    destruct (Intn_range r (Z.of_nat (S i) + 1) ltac:(lia))
      as (j & r' & -> & Hj). cbn [bind].
    destruct (swap_Done cs (Z.of_nat (S i)) j) as (cs1 & -> & P1); [lia..|].
    cbn [bind].
    destruct (IH cs1 r') as (cs2 & r2 & -> & P2).
    + rewrite (Permutation_length P1). lia.
    + rewrite (Permutation_len _ _ P1). exact Hb.
    + exists cs2, r2. split; [reflexivity|]. now rewrite P2.
Qed.

Lemma shuffle_Done cs r :
  len cs <= Int.max_int ->
  exists cs' r', shuffle cs r = Done (cs', r') /\ cs' ≡ₚ cs.
Proof.
  intros Hb. unfold shuffle. pose proof (len_nonneg cs).
  rewrite sub_exact by in_range.
  apply shuffle_from_Done; [unfold len; lia | exact Hb].
Qed.

(** The loop reads one number from the random source per step. *)
Lemma shuffle_from_rng i : forall cs r,
  (i <= pred (length cs))%nat -> len cs <= Int.max_int ->
  exists cs',
    shuffle_from i cs r =
      Done (cs', {| tape := tape r; pos := (pos r + i)%nat |}) /\
    cs' ≡ₚ cs.
Proof.
  induction i as [|i IH]; intros cs r Hi Hb.
  - exists cs. rewrite Nat.add_0_r. destruct r. split; reflexivity.
  - cbn [shuffle_from].
    assert (Z.of_nat (S i) < len cs) as Hlt by (unfold len; lia).
    rewrite add_exact by in_range. unfold Intn.
    assert ((Z.of_nat (S i) + 1 <=? 0) = false) as -> by (apply Z.leb_gt; lia).
    cbn [bind].
    pose proof (Z.mod_pos_bound (tape r (pos r)) (Z.of_nat (S i) + 1)
                  ltac:(lia)) as Hj.
    destruct (swap_Done cs (Z.of_nat (S i))
                (tape r (pos r) mod (Z.of_nat (S i) + 1)))
      as (cs1 & -> & P1); [lia..|].
    cbn [bind].
    destruct (IH cs1 {| tape := tape r; pos := S (pos r) |})
      as (cs2 & -> & P2).
    + rewrite (Permutation_length P1). lia.
    + now rewrite (Permutation_len _ _ P1).
    + exists cs2. cbn [tape pos]. rewrite Nat.add_succ_comm.
      split; [reflexivity | now rewrite P2].
Qed.

Lemma shuffle_rng cs r :
  len cs <= Int.max_int ->
  exists cs',
    shuffle cs r =
      Done (cs', {| tape := tape r; pos := (pos r + pred (length cs))%nat |}) /\
    cs' ≡ₚ cs.
Proof.
  intros Hb. unfold shuffle. pose proof (len_nonneg cs).
  rewrite sub_exact by in_range.
  replace (Z.to_nat (len cs - 1)) with (pred (length cs)) by (unfold len; lia).
  exact (shuffle_from_rng (pred (length cs)) cs r (Nat.le_refl _) Hb).
Qed.

(** *** The cards of a fresh shoe *)

Lemma all_suits_val : all_suits = [0; 1; 2; 3].
Proof. reflexivity. Qed.

Lemma all_ranks_val : all_ranks = [1; 2; 3; 4; 5; 6; 7; 8; 9; 10; 11; 12; 13].
Proof. reflexivity. Qed.

Lemma length_flat_map_const {A B} (f : A -> list B) (l : list A) n :
  (forall a, length (f a) = n) -> length (flat_map f l) = (length l * n)%nat.
Proof.
  intros Hf. induction l as [|a l IH]; [reflexivity|].
  cbn [flat_map]. rewrite length_app, Hf, IH. reflexivity.
Qed.

Lemma length_fresh_cards shoe :
  length (fresh_cards shoe) = (52 * Z.to_nat shoe)%nat.
Proof.
  unfold fresh_cards.
  rewrite (length_flat_map_const _ _ (13 * Z.to_nat shoe)).
  - rewrite all_suits_val. cbn [length]. lia.
  - intros s. rewrite (length_flat_map_const _ _ (Z.to_nat shoe)).
    + rewrite all_ranks_val. cbn [length]. lia.
    + intros r. apply repeat_length.
Qed.

Lemma len_fresh_cards shoe : 0 <= shoe -> len (fresh_cards shoe) = 52 * shoe.
Proof. intros H. unfold len. rewrite length_fresh_cards. lia. Qed.

Lemma forallb_flat_map {A B} (p : B -> bool) (f : A -> list B) (l : list A) :
  (forall a, In a l -> forallb p (f a) = true) ->
  forallb p (flat_map f l) = true.
Proof.
  induction l as [|a l IH]; intros H; [reflexivity|].
  cbn [flat_map]. rewrite forallb_app, H, IH; [reflexivity| |left; reflexivity].
  intros b Hb. apply H. right. exact Hb.
Qed.

Lemma forallb_repeat {A} (p : A -> bool) x n :
  p x = true -> forallb p (repeat x n) = true.
Proof. intros H. induction n; cbn; [reflexivity|]. now rewrite H. Qed.

Lemma fresh_cards_valid shoe : forallb valid_card (fresh_cards shoe) = true.
Proof.
  unfold fresh_cards. apply forallb_flat_map. intros s Hs.
  apply forallb_flat_map. intros r Hr. apply forallb_repeat.
  rewrite all_suits_val in Hs. rewrite all_ranks_val in Hr.
  unfold valid_card, Clubs, Spades, Ace, King. cbn [Suit_ Rank_].
  cbn [In] in Hs, Hr. rewrite !andb_true_iff, !Z.leb_le. lia.
Qed.

(** Copies of one card in the rank loop of a given suit. *)
Lemma count_rank_loop (R : list Z) n s' s r :
  count_occ Card_eq_dec
    (flat_map (fun r' => repeat {| Suit_ := s'; Rank_ := r' |} n) R)
    {| Suit_ := s; Rank_ := r |} =
  if Z.eq_dec s' s then (count_occ Z.eq_dec R r * n)%nat else 0%nat.
Proof.
  induction R as [|r0 R IH]; cbn [flat_map count_occ].
  - destruct (Z.eq_dec s' s); reflexivity.
  - rewrite count_occ_app, IH.
    destruct (Z.eq_dec s' s) as [->|Hs].
    + destruct (Z.eq_dec r0 r) as [->|Hr].
      * rewrite count_occ_repeat_eq by reflexivity. lia.
      * rewrite count_occ_repeat_neq by congruence. lia.
    + rewrite count_occ_repeat_neq by congruence. lia.
Qed.

Lemma count_suit_loop (S R : list Z) n s r :
  count_occ Card_eq_dec
    (flat_map (fun s' =>
       flat_map (fun r' => repeat {| Suit_ := s'; Rank_ := r' |} n) R) S)
    {| Suit_ := s; Rank_ := r |} =
  (count_occ Z.eq_dec S s * (count_occ Z.eq_dec R r * n))%nat.
Proof.
  induction S as [|s0 S IH]; cbn [flat_map count_occ]; [reflexivity|].
  rewrite count_occ_app, IH, count_rank_loop.
  destruct (Z.eq_dec s0 s); lia.
Qed.

(** A fresh shoe holds [shoe] copies of each of the 52 cards. *)
Lemma count_fresh_cards shoe c :
  valid_card c = true ->
  count_occ Card_eq_dec (fresh_cards shoe) c = Z.to_nat shoe.
Proof.
  destruct c as [s r]. unfold valid_card, Clubs, Spades, Ace, King.
  cbn [Suit_ Rank_]. rewrite !andb_true_iff, !Z.leb_le. intros Hv.
  unfold fresh_cards. rewrite count_suit_loop.
  assert (count_occ Z.eq_dec all_suits s = 1%nat) as ->.
  { assert (s = 0 \/ s = 1 \/ s = 2 \/ s = 3) as Hs by lia.
    destruct Hs as [->|[->|[->| ->]]]; reflexivity. }
  assert (count_occ Z.eq_dec all_ranks r = 1%nat) as ->.
  { assert (r = 1 \/ r = 2 \/ r = 3 \/ r = 4 \/ r = 5 \/ r = 6 \/ r = 7 \/
            r = 8 \/ r = 9 \/ r = 10 \/ r = 11 \/ r = 12 \/ r = 13) as Hr by lia.
    repeat (destruct Hr as [->|Hr]; [reflexivity|]). subst r. reflexivity. }
  lia.
Qed.

Lemma forallb_Permutation {A} (p : A -> bool) (l l' : list A) :
  l' ≡ₚ l -> forallb p l = true -> forallb p l' = true.
Proof.
  intros HP. rewrite !forallb_forall. intros H x Hx. apply H.
  eapply Permutation_in; [exact HP | exact Hx].
Qed.

Lemma shoe_ok_inv shoe :
  shoe_ok shoe = true -> 1 <= shoe /\ 52 * shoe <= Int.max_int.
Proof. unfold shoe_ok. rewrite andb_true_iff, !Z.leb_le. tauto. Qed.

Lemma deck_ok_inv d :
  deck_ok d = true ->
  1 <= shoe d /\ 52 * shoe d <= Int.max_int /\ len (cards d) <= 52 * shoe d.
Proof.
  unfold deck_ok. rewrite andb_true_iff, Z.leb_le.
  intros [H%shoe_ok_inv ?]. tauto.
Qed.

Lemma deck_ok_intro d :
  1 <= shoe d -> 52 * shoe d <= Int.max_int -> len (cards d) <= 52 * shoe d ->
  deck_ok d = true.
Proof.
  intros. unfold deck_ok, shoe_ok. rewrite !andb_true_iff, !Z.leb_le. tauto.
Qed.

(** [reset] never panics on a good shoe count; it leaves a full shoe, in
    some order. *)
Lemma reset_Done d :
  shoe_ok (shoe d) = true ->
  exists cs r,
    reset d = Done {| cards := cs; rng := r; shoe := shoe d |} /\
    cs ≡ₚ fresh_cards (shoe d).
Proof.
  intros [H1 Hb]%shoe_ok_inv. unfold reset.
  destruct (shuffle_Done (fresh_cards (shoe d)) (rng d)) as (cs & r & -> & HP).
  { rewrite len_fresh_cards by lia. exact Hb. }
  exists cs, r. split; [reflexivity | exact HP].
Qed.

(** [reset] is the shuffle of the fresh cards on the deck's own random
    source, which it advances by one number per card but the first. *)
Lemma reset_rng d :
  shoe_ok (shoe d) = true ->
  exists cs r',
    reset d = Done {| cards := cs; rng := r'; shoe := shoe d |} /\
    shuffle (fresh_cards (shoe d)) (rng d) = Done (cs, r') /\
    cs ≡ₚ fresh_cards (shoe d) /\
    tape r' = tape (rng d) /\
    pos r' = (pos (rng d) + (52 * Z.to_nat (shoe d) - 1))%nat.
Proof.
  intros [H1 Hb]%shoe_ok_inv.
  destruct (shuffle_rng (fresh_cards (shoe d)) (rng d)) as (cs & HS & HP).
  { rewrite len_fresh_cards by lia. exact Hb. }
  unfold reset. rewrite HS. cbn [bind].
  eexists cs, _. split; [reflexivity|]. split; [reflexivity|].
  split; [exact HP|]. cbn [tape pos]. split; [reflexivity|].
  rewrite length_fresh_cards. lia.
Qed.

Lemma NewDeck_Done shoe0 r :
  52 * shoe0 <= Int.max_int ->
  exists d,
    NewDeck shoe0 r = Done d /\
    shoe d = Z.max shoe0 1 /\
    cards d ≡ₚ fresh_cards (Z.max shoe0 1).
Proof.
  intros Hb. unfold NewDeck.
  assert ((if shoe0 <? 1 then 1 else shoe0) = Z.max shoe0 1) as ->.
  { destruct (shoe0 <? 1) eqn:E; [apply Z.ltb_lt in E | apply Z.ltb_ge in E];
      lia. }
  set (d0 := {| cards := []; rng := r; shoe := Z.max shoe0 1 |}).
  destruct (reset_Done d0) as (cs & r' & -> & HP).
  { unfold shoe_ok. cbn [shoe d0]. rewrite andb_true_iff, !Z.leb_le.
    rewrite max_int_val in *. lia. }
  eexists. split; [reflexivity|]. split; [reflexivity | exact HP].
Qed.

Lemma refill_Done d :
  deck_ok d = true ->
  exists d0,
    refill d = Done d0 /\ shoe d0 = shoe d /\ 0 < len (cards d0) /\
    deck_ok d0 = true /\
    (if len (cards d) =? 0
     then cards d0 ≡ₚ fresh_cards (shoe d)
     else d0 = d).
Proof.
  intros Hok. pose proof (deck_ok_inv d Hok) as (H1 & Hb & Hl).
  unfold refill. destruct (len (cards d) =? 0) eqn:E.
  - destruct (reset_Done d) as (cs & r & -> & HP).
    { unfold shoe_ok. rewrite andb_true_iff, !Z.leb_le. tauto. }
    pose proof (Permutation_len _ _ HP) as HL.
    rewrite len_fresh_cards in HL by lia.
    eexists. split; [reflexivity|]. cbn [shoe cards].
    repeat split; [lia | | exact HP].
    apply deck_ok_intro; cbn [shoe cards]; lia.
  - apply Z.eqb_neq in E. pose proof (len_nonneg (cards d)).
    exists d. repeat split; [lia | exact Hok].
Qed.

(** Removing the last card: what [Draw] does after the refill. *)
Lemma Draw_Done d :
  deck_ok d = true ->
  exists d0 c d',
    refill d = Done d0 /\
    Draw d = Done (c, d') /\
    cards d0 = cards d' ++ [c] /\
    rng d' = rng d0 /\ shoe d' = shoe d /\
    deck_ok d' = true.
Proof.
  intros Hok. destruct (refill_Done d Hok) as (d0 & Hr & Hs & Hpos & Hok0 & _).
  pose proof (deck_ok_inv d0 Hok0) as (H1 & Hb & Hl).
  unfold Draw. rewrite Hr. cbn [bind].
  rewrite sub_exact by in_range.
  destruct (at_index_Done (cards d0) (len (cards d0) - 1)) as (c & -> & Lc);
    [lia|]. cbn [bind].
  exists d0, c. eexists. split; [reflexivity|]. split; [reflexivity|].
  cbn [cards rng shoe].
  assert (cards d0 = take (Z.to_nat (len (cards d0) - 1)) (cards d0) ++ [c])
    as Hsplit.
  { rewrite <- (take_S_r _ _ _ Lc). symmetry. apply take_ge.
    unfold len in *. lia. }
  repeat split; [exact Hsplit | exact Hs |].
  apply deck_ok_intro; cbn [cards shoe]; try lia.
  unfold len in *. rewrite length_take. lia.
Qed.

Lemma sound_deck_inv d :
  sound_deck d = true ->
  deck_ok d = true /\ forallb valid_card (cards d) = true.
Proof. unfold sound_deck. now rewrite andb_true_iff. Qed.

(** On a sound deck the drawn card is a valid card and the deck stays
    sound. *)
Lemma Draw_sound d :
  sound_deck d = true ->
  exists c d',
    Draw d = Done (c, d') /\ valid_card c = true /\ sound_deck d' = true.
Proof.
  intros [Hok Hv]%sound_deck_inv.
  destruct (refill_Done d Hok) as (d0 & Hr & _ & _ & _ & Hcase).
  destruct (Draw_Done d Hok) as (d0' & c & d' & Hr' & HD & Hc & _ & _ & Hok').
  rewrite Hr in Hr'. injection Hr' as <-.
  assert (forallb valid_card (cards d0) = true) as Hv0.
  { destruct (len (cards d) =? 0).
    - eapply forallb_Permutation; [exact Hcase | apply fresh_cards_valid].
    - now subst d0. }
  rewrite Hc, forallb_app in Hv0. cbn [forallb] in Hv0.
  apply andb_true_iff in Hv0 as [Hv' Hvc]. rewrite andb_true_r in Hvc.
  exists c, d'. split; [exact HD|]. split; [exact Hvc|].
  unfold sound_deck. now rewrite Hok', Hv'.
Qed.

(** C8. [NewDeck] clamps the shoe count to at least 1 and builds a deck of
    exactly 52 * max(shoe, 1) cards, max(shoe, 1) copies of each valid card,
    in the order [shuffle] gives the fresh cards on the deck's random source
    (which is advanced by one number per card but the first); [Draw] on such
    a deck never panics: an empty deck is first refilled with the 52 * shoe
    fresh cards, shuffled in the same way on the deck's own source, the card
    returned is the last one of the (possibly refilled) deck, the deck that
    remains is that deck without its last card, and it can be drawn from
    again. *)
Theorem Draw_total_on_NewDeck :
  (forall shoe0 r,
     52 * shoe0 <= Int.max_int ->
     exists d,
       NewDeck shoe0 r = Done d /\
       shoe d = Z.max shoe0 1 /\
       len (cards d) = 52 * Z.max shoe0 1 /\
       (forall c, valid_card c = true ->
                  count_occ Card_eq_dec (cards d) c = Z.to_nat (Z.max shoe0 1)) /\
       shuffle (fresh_cards (Z.max shoe0 1)) r = Done (cards d, rng d) /\
       tape (rng d) = tape r /\
       pos (rng d) = (pos r + (52 * Z.to_nat (Z.max shoe0 1) - 1))%nat /\
       deck_ok d = true) /\
  (forall d,
     deck_ok d = true ->
     exists d0 c d',
       refill d = Done d0 /\
       (if len (cards d) =? 0
        then len (cards d0) = 52 * shoe d /\
             cards d0 ≡ₚ fresh_cards (shoe d) /\
             shuffle (fresh_cards (shoe d)) (rng d) = Done (cards d0, rng d0) /\
             tape (rng d0) = tape (rng d) /\
             pos (rng d0) = (pos (rng d) + (52 * Z.to_nat (shoe d) - 1))%nat
        else d0 = d) /\
       Draw d = Done (c, d') /\
       cards d0 = cards d' ++ [c] /\
       rng d' = rng d0 /\ shoe d' = shoe d /\
       len (cards d') = len (cards d0) - 1 /\
       deck_ok d' = true).
Proof.
  split.
  - intros shoe0 r Hb. unfold NewDeck.
    assert ((if shoe0 <? 1 then 1 else shoe0) = Z.max shoe0 1) as ->.
    { destruct (shoe0 <? 1) eqn:E;
        [apply Z.ltb_lt in E | apply Z.ltb_ge in E]; lia. }
    set (d0 := {| cards := []; rng := r; shoe := Z.max shoe0 1 |}).
    destruct (reset_rng d0) as (cs & r' & HR & HS & HP & HT & HN).
    { unfold shoe_ok. cbn [shoe d0]. rewrite andb_true_iff, !Z.leb_le.
      rewrite max_int_val in *. lia. }
    cbn [d0 shoe rng] in HR, HS, HP, HT, HN.
    pose proof (Permutation_len _ _ HP) as HL.
    rewrite len_fresh_cards in HL by lia.
    eexists. split; [exact HR|]. cbn [cards rng shoe].
    split; [reflexivity|]. split; [exact HL|]. split; [|split; [exact HS|]].
    + intros c Hc. rewrite <- (count_fresh_cards _ c Hc).
      apply Permutation_count_occ. exact HP.
    + split; [exact HT|]. split; [exact HN|].
      apply deck_ok_intro; cbn [cards shoe]; rewrite ?HL;
        rewrite ?max_int_val in *; lia.
  - intros d Hok.
    destruct (refill_Done d Hok) as (d0 & Hr & _ & _ & _ & Hcase).
    destruct (Draw_Done d Hok)
      as (d0' & c & d' & Hr' & HD & Hc & Hg & Hs & Hok').
    rewrite Hr in Hr'. injection Hr' as <-.
    pose proof (deck_ok_inv d Hok) as (H1 & Hb & _).
    exists d0, c, d'. split; [exact Hr|]. split.
    + destruct (len (cards d) =? 0) eqn:E; [|exact Hcase].
      destruct (reset_rng d) as (cs & r' & HR & HS & HP & HT & HN).
      { unfold shoe_ok. rewrite andb_true_iff, !Z.leb_le. tauto. }
      unfold refill in Hr. rewrite E, HR in Hr. injection Hr as <-.
      cbn [cards rng]. split; [|now repeat split].
      rewrite (Permutation_len _ _ HP). apply len_fresh_cards. lia.
    + split; [exact HD|]. split; [exact Hc|]. split; [exact Hg|].
      split; [exact Hs|]. split; [|exact Hok'].
      unfold len. rewrite Hc, length_app. cbn [length]. lia.
Qed.

Lemma Draw_total_on_NewDeck_witness :
  (exists d,
     NewDeck 0 sample_tape = Done d /\ len (cards d) = 52 /\
     pos (rng d) = 51%nat /\ cards d <> fresh_cards 1) /\
  deck_ok empty_deck = true /\
  (exists d0 d',
     refill empty_deck = Done d0 /\
     Draw empty_deck = Done (card Diamonds Ace, d') /\
     len (cards d0) = 52 /\ cards d0 <> fresh_cards 1 /\
     pos (rng d0) = 51%nat /\
     len (cards d') = 51 /\ pos (rng d') = 51%nat).
Proof.
  destruct Draw_total_on_NewDeck as [HN HD].
  split; [|split; [reflexivity|]].
  - destruct (HN 0 sample_tape) as (d & H1 & _ & H3 & _ & _ & _ & H7 & _).
    + rewrite max_int_val. lia.
    + exists d. split; [exact H1|]. split; [exact H3|]. split; [exact H7|].
      vm_compute in H1. injection H1 as <-.
      intros E. vm_compute in E. discriminate E.
  - destruct (HD empty_deck eq_refl)
      as (d0 & c & d' & H1 & H2 & H3 & H4 & H5 & _ & H7 & _).
    cbn in H2. destruct H2 as (H2 & _ & _ & _ & H2p).
    exists d0, d'. split; [exact H1|].
    assert (c = card Diamonds Ace) as ->.
    { vm_compute in H3. now injection H3 as <- _. }
    split; [exact H3|]. split; [exact H2|].
    split; [|split; [exact H2p|split; [lia | now rewrite H5]]].
    vm_compute in H1. injection H1 as <-.
    intros E. vm_compute in E. discriminate E.
Defined.

(** ** Strings *)

Lemma prefix_append (x s : string) : String.prefix x (x +:+ s) = true.
Proof.
  induction x as [|a x IH].
  - destruct s; reflexivity.
  - change (String a x +:+ s) with (String a (x +:+ s)). cbn [String.prefix].
    destruct (Ascii.ascii_dec a a) as [_|N]; [exact IH | now destruct N].
Qed.

Lemma contains_here (x s : string) : contains (x +:+ s) x = true.
Proof.
  destruct (x +:+ s) eqn:E; cbn [contains]; rewrite <- E, prefix_append;
    reflexivity.
Qed.

Lemma contains_later (a s x : string) :
  contains s x = true -> contains (a +:+ s) x = true.
Proof.
  intros H. induction a as [|c a IH]; [exact H|].
  change (String c a +:+ s) with (String c (a +:+ s)). cbn [contains].
  rewrite IH. apply orb_true_r.
Qed.

(** A value formatted into the middle of a message occurs in it. *)
Lemma contains_middle (a x b : string) : contains (a +:+ x +:+ b) x = true.
Proof. apply contains_later, contains_here. Qed.

(** ** Resolution of a round *)

Lemma finishRound_message g :
  Result (finishRound g) = round_message (best (Player g)) (best (Dealer g)).
Proof.
  unfold finishRound, round_message, best. cbn [Player Dealer set_State].
  rewrite !Z.gtb_ltb.
  destruct (21 <? fst (Value (Player g))); [reflexivity|].
  destruct (21 <? fst (Value (Dealer g))); [reflexivity|].
  destruct (fst (Value (Dealer g)) <? fst (Value (Player g))); [reflexivity|].
  destruct (fst (Value (Player g)) <? fst (Value (Dealer g))); reflexivity.
Qed.

Lemma finishRound_frame g :
  State_ (finishRound g) = RoundOver /\
  Deck_ (finishRound g) = Deck_ g /\
  Player (finishRound g) = Player g /\
  Dealer (finishRound g) = Dealer g.
Proof.
  unfold finishRound. cbn [Player Dealer set_State].
  destruct (_ >? 21); [now repeat split|].
  destruct (_ >? 21); [now repeat split|].
  destruct (_ >? _); [now repeat split|].
  destruct (_ <? _); now repeat split.
Qed.

Lemma round_message_nonempty p d : round_message p d <> "".
Proof.
  unfold round_message.
  destruct (21 <? p); [discriminate|]. destruct (21 <? d); [discriminate|].
  destruct (d <? p); [discriminate|]. destruct (p <? d); discriminate.
Qed.

(** C5, as stated, fails when the dealer busts: the player has not bust
    (20), yet the message names the dealer's 22 only. *)
Lemma finishRound_dealer_bust_omits_player_value :
  best (Player dealer_bust_game) = 20 /\
  best (Dealer dealer_bust_game) = 22 /\
  Result (finishRound dealer_bust_game) = "Dealer busts (22). Player wins!" /\
  ~ (contains (Result (finishRound dealer_bust_game))
       (fmt_d (best (Player dealer_bust_game))) = true /\
     contains (Result (finishRound dealer_bust_game))
       (fmt_d (best (Dealer dealer_bust_game))) = true).
Proof.
  repeat split; try reflexivity.
  intros [H _]. vm_compute in H. discriminate H.
Qed.

(** C5 (amended). [finishRound] always sets the state to [RoundOver],
    leaves deck and hands alone, and sets the result by priority: a player
    value over 21 gives the dealer the round, with a message that carries the
    player's value; otherwise a dealer value over 21 gives the player the
    round, with a message that carries the dealer's value; otherwise the
    strictly higher value wins and equal values push, and in these three
    cases the message carries both values. *)
Theorem finishRound_spec (g : Game) :
  let p := best (Player g) in
  let d := best (Dealer g) in
  let g' := finishRound g in
  State_ g' = RoundOver /\
  Deck_ g' = Deck_ g /\ Player g' = Player g /\ Dealer g' = Dealer g /\
  (21 < p ->
   Result g' = "Player busts (" +:+ fmt_d p +:+ "). Dealer wins." /\
   contains (Result g') (fmt_d p) = true) /\
  (p <= 21 -> 21 < d ->
   Result g' = "Dealer busts (" +:+ fmt_d d +:+ "). Player wins!" /\
   contains (Result g') (fmt_d d) = true) /\
  (p <= 21 -> d <= 21 ->
   (d < p ->
    Result g' = "Player wins! (" +:+ fmt_d p +:+ " vs " +:+ fmt_d d +:+ ")") /\
   (p < d ->
    Result g' = "Dealer wins. (" +:+ fmt_d d +:+ " vs " +:+ fmt_d p +:+ ")") /\
   (p = d ->
    Result g' = "Push. (" +:+ fmt_d p +:+ " vs " +:+ fmt_d d +:+ ")") /\
   contains (Result g') (fmt_d p) = true /\
   contains (Result g') (fmt_d d) = true).
Proof.
  intros p d g'. subst g'.
  destruct (finishRound_frame g) as (HS & HD & HP & HL).
  rewrite finishRound_message. fold p d. unfold round_message.
  split; [exact HS|]. split; [exact HD|]. split; [exact HP|].
  split; [exact HL|].
  split; [|split].
  - intros H. apply Z.ltb_lt in H. rewrite H.
    split; [reflexivity | apply contains_middle].
  - intros Hp Hd. apply Z.ltb_ge in Hp. apply Z.ltb_lt in Hd. rewrite Hp, Hd.
    split; [reflexivity | apply contains_middle].
  - intros Hp Hd. apply Z.ltb_ge in Hp. apply Z.ltb_ge in Hd. rewrite Hp, Hd.
    destruct (d <? p) eqn:E1; [apply Z.ltb_lt in E1 | apply Z.ltb_ge in E1].
    + repeat split; try (intros; lia); try reflexivity.
      * apply contains_middle.
      * apply contains_later, contains_later, contains_middle.
    + destruct (p <? d) eqn:E2; [apply Z.ltb_lt in E2 | apply Z.ltb_ge in E2].
      * repeat split; try (intros; lia); try reflexivity.
        -- apply contains_later, contains_later, contains_middle.
        -- apply contains_middle.
      * repeat split; try (intros; lia); try reflexivity.
        -- apply contains_middle.
        -- apply contains_later, contains_later, contains_middle.
Qed.

Lemma finishRound_spec_witness :
  let g := dealer_bust_game in
  best (Player g) <= 21 /\ 21 < best (Dealer g) /\
  State_ (finishRound g) = RoundOver /\
  Result (finishRound g) = "Dealer busts (22). Player wins!" /\
  contains (Result (finishRound g)) "22" = true.
Proof.
  intros g.
  destruct (finishRound_spec g) as (HS & _ & _ & _ & _ & HB & _).
  assert (best (Player g) <= 21) as Hp by (vm_compute; discriminate).
  assert (21 < best (Dealer g)) as Hd by reflexivity.
  destruct (HB Hp Hd) as [HR HC].
  split; [exact Hp|]. split; [exact Hd|]. split; [exact HS|].
  split; [exact HR | exact HC].
Defined.

(** ** Deal, hit, stand *)

Lemma player_draws_Done g c d' :
  Draw (Deck_ g) = Done (c, d') ->
  player_draws g = Done (set_Player (set_Deck g d') (Add (Player g) c)).
Proof. intros H. unfold player_draws. rewrite H. reflexivity. Qed.

Lemma dealer_draws_Done g c d' :
  Draw (Deck_ g) = Done (c, d') ->
  dealer_draws g = Done (set_Dealer (set_Deck g d') (Add (Dealer g) c)).
Proof. intros H. unfold dealer_draws. rewrite H. reflexivity. Qed.

Lemma State_eqb_eq a b : State_eqb a b = true <-> a = b.
Proof. destruct a, b; cbn; split; congruence. Qed.

(** The first four draws from a good deck. *)
Lemma four_draws d :
  deck_ok d = true ->
  exists c1 d1 c2 d2 c3 d3 c4 d4,
    Draw d = Done (c1, d1) /\ Draw d1 = Done (c2, d2) /\
    Draw d2 = Done (c3, d3) /\ Draw d3 = Done (c4, d4) /\
    deck_ok d4 = true.
Proof.
  intros H0.
  destruct (Draw_Done d H0) as (_ & c1 & d1 & _ & E1 & _ & _ & _ & H1).
  destruct (Draw_Done d1 H1) as (_ & c2 & d2 & _ & E2 & _ & _ & _ & H2).
  destruct (Draw_Done d2 H2) as (_ & c3 & d3 & _ & E3 & _ & _ & _ & H3).
  destruct (Draw_Done d3 H3) as (_ & c4 & d4 & _ & E4 & _ & _ & _ & H4).
  exists c1, d1, c2, d2, c3, d3, c4, d4. auto.
Qed.

(** [Deal] in terms of its four draws. *)
Lemma Deal_unfold g c1 d1 c2 d2 c3 d3 c4 d4 :
  Draw (Deck_ g) = Done (c1, d1) -> Draw d1 = Done (c2, d2) ->
  Draw d2 = Done (c3, d3) -> Draw d3 = Done (c4, d4) ->
  let dealt := {| Deck_ := d4; Player := {| Cards := [c1; c3] |};
                  Dealer := {| Cards := [c2; c4] |};
                  State_ := PlayerTurn; Result := "" |} in
  Deal g = Done (if (best (Player dealt) =? 21) || (best (Dealer dealt) =? 21)
                 then finishRound dealt else dealt).
Proof.
  intros E1 E2 E3 E4 dealt. unfold Deal.
  erewrite player_draws_Done by (cbn; exact E1). cbn [bind].
  erewrite dealer_draws_Done by (cbn; exact E2). cbn [bind].
  erewrite player_draws_Done by (cbn; exact E3). cbn [bind].
  erewrite dealer_draws_Done by (cbn; exact E4). cbn [bind].
  cbv [set_Dealer set_Deck set_Player set_State set_Result Clear Add
       Deck_ Player Dealer State_ Result Cards app best dealt].
  destruct (_ || _); reflexivity.
Qed.

(** C1. [Deal] checks no guard: from any game whatever its state, hands
    and result (on a deck as [NewDeck] and [Draw] keep it), it draws four
    cards, gives the first and third to an emptied player hand and the second
    and fourth to an emptied dealer hand; if either hand is then worth
    exactly 21 the round is resolved, with state [RoundOver] and a non-empty
    result; otherwise the state is [PlayerTurn] and the result is empty. *)
Theorem Deal_spec (g : Game) :
  deck_ok (Deck_ g) = true ->
  exists c1 d1 c2 d2 c3 d3 c4 d4 g',
    Draw (Deck_ g) = Done (c1, d1) /\ Draw d1 = Done (c2, d2) /\
    Draw d2 = Done (c3, d3) /\ Draw d3 = Done (c4, d4) /\
    Deal g = Done g' /\
    Deck_ g' = d4 /\
    Cards (Player g') = [c1; c3] /\ Cards (Dealer g') = [c2; c4] /\
    (if (best (Player g') =? 21) || (best (Dealer g') =? 21)
     then State_ g' = RoundOver /\ Result g' <> ""
     else State_ g' = PlayerTurn /\ Result g' = "").
Proof.
  intros Hok.
  destruct (four_draws _ Hok)
    as (c1 & d1 & c2 & d2 & c3 & d3 & c4 & d4 & E1 & E2 & E3 & E4 & _).
  pose proof (Deal_unfold g _ _ _ _ _ _ _ _ E1 E2 E3 E4) as HD.
  cbv zeta in HD.
  set (dealt := {| Deck_ := d4; Player := {| Cards := [c1; c3] |};
                   Dealer := {| Cards := [c2; c4] |};
                   State_ := PlayerTurn; Result := "" |}) in *.
  exists c1, d1, c2, d2, c3, d3, c4, d4.
  eexists. split; [exact E1|]. split; [exact E2|]. split; [exact E3|].
  split; [exact E4|]. split; [exact HD|].
  destruct (finishRound_frame dealt) as (HS & HK & HP & HL).
  destruct ((best (Player dealt) =? 21) || (best (Dealer dealt) =? 21)) eqn:E.
  - rewrite HK, HP, HL, E. repeat split; try assumption.
    rewrite finishRound_message. apply round_message_nonempty.
  - rewrite E. repeat split.
Qed.

Lemma Deal_spec_witness :
  deck_ok (Deck_ finished_game) = true /\
  exists g',
    Deal finished_game = Done g' /\
    Cards (Player g') = [card Spades Ten; card Hearts Five] /\
    Cards (Dealer g') = [card Diamonds Seven; card Clubs Nine] /\
    State_ g' = PlayerTurn /\ Result g' = "".
Proof.
  split; [reflexivity|].
  destruct (Deal_spec finished_game eq_refl)
    as (c1 & d1 & c2 & d2 & c3 & d3 & c4 & d4 & g' &
        E1 & E2 & E3 & E4 & HD & _ & HP & HL & HS).
  exists g'. split; [exact HD|].
  vm_compute in HD. injection HD as <-.
  split; [reflexivity|]. split; [reflexivity|]. exact HS.
Defined.

(** C6. In state [PlayerTurn] (where the result is empty), [PlayerHit]
    draws exactly one card, appends it to the player's hand and touches
    nothing else but the deck; the round is resolved if and only if the new
    value exceeds 21; a new value of 22 gives a result that contains
    "Player busts (22)", and any new value up to 21, 21 included, leaves the
    state [PlayerTurn] and the result empty. *)
Theorem PlayerHit_spec (g : Game) :
  State_ g = PlayerTurn ->
  deck_ok (Deck_ g) = true ->
  Result g = "" ->
  exists c d' g',
    Draw (Deck_ g) = Done (c, d') /\
    PlayerHit g = Done g' /\
    Deck_ g' = d' /\
    Cards (Player g') = Cards (Player g) ++ [c] /\
    Dealer g' = Dealer g /\
    (State_ g' = RoundOver <-> 21 < best (Player g')) /\
    (best (Player g') = 22 ->
     contains (Result g') "Player busts (22)" = true) /\
    (best (Player g') <= 21 -> State_ g' = PlayerTurn /\ Result g' = "").
Proof.
  intros HS Hok HR.
  destruct (Draw_Done _ Hok) as (_ & c & d' & _ & HD & _).
  exists c, d'. unfold PlayerHit. rewrite HS. cbn [State_eqb negb].
  rewrite (player_draws_Done g c d' HD). cbn [bind].
  set (g1 := set_Player (set_Deck g d') (Add (Player g) c)).
  fold (best (Player g1)). rewrite Z.gtb_ltb.
  destruct (finishRound_frame g1) as (FS & FK & FP & FL).
  destruct (21 <? best (Player g1)) eqn:E;
    [apply Z.ltb_lt in E | apply Z.ltb_ge in E]; eexists;
    (split; [exact HD|]); (split; [reflexivity|]).
  - rewrite FS, FK, FP, FL. repeat split; try (intros; assumption || lia).
    intros H22. rewrite finishRound_message, H22. reflexivity.
  - assert (State_ g1 = PlayerTurn) as HS1 by exact HS.
    assert (Result g1 = "") as HR1 by exact HR.
    rewrite HS1, HR1.
    repeat split; try (intros; lia || discriminate).
Qed.

Lemma PlayerHit_spec_witness :
  (exists g', PlayerHit hit_to_22_game = Done g' /\
              State_ g' = RoundOver /\
              contains (Result g') "Player busts (22)" = true) /\
  (exists g', PlayerHit hit_to_21_game = Done g' /\
              best (Player g') = 21 /\
              State_ g' = PlayerTurn /\ Result g' = "").
Proof.
  split.
  - destruct (PlayerHit_spec hit_to_22_game eq_refl eq_refl eq_refl)
      as (c & d' & g' & _ & HH & _ & _ & _ & HS & H22 & _).
    exists g'. split; [exact HH|].
    vm_compute in HH. injection HH as <-.
    split; [apply HS; reflexivity | apply H22; reflexivity].
  - destruct (PlayerHit_spec hit_to_21_game eq_refl eq_refl eq_refl)
      as (c & d' & g' & _ & HH & _ & _ & _ & _ & _ & H21).
    exists g'. split; [exact HH|].
    vm_compute in HH. injection HH as <-.
    split; [reflexivity|]. apply H21. vm_compute. discriminate.
Defined.

(** C7. Outside [PlayerTurn], [PlayerHit] and [PlayerStand] return
    normally and leave the whole game as it was: state, result, both hands
    and the deck. *)
Theorem off_turn_calls_change_nothing (g : Game) :
  State_ g <> PlayerTurn ->
  PlayerHit g = Done g /\ forall fuel, PlayerStand fuel g = Done g.
Proof.
  intros HS. unfold PlayerHit, PlayerStand.
  destruct (State_eqb (State_ g) PlayerTurn) eqn:E.
  - apply State_eqb_eq in E. contradiction.
  - cbn [negb]. split; [reflexivity | intros fuel; reflexivity].
Qed.

Lemma off_turn_calls_change_nothing_witness :
  State_ finished_game = RoundOver /\
  PlayerHit finished_game = Done finished_game /\
  PlayerStand 0 finished_game = Done finished_game.
Proof.
  destruct (off_turn_calls_change_nothing finished_game) as [HH HT].
  - discriminate.
  - split; [reflexivity|]. split; [exact HH | exact (HT 0%nat)].
Defined.

(** What a successful [Deal] returns: the dealt game, resolved or not. *)
Lemma Deal_inv g g' :
  Deal g = Done g' ->
  exists dealt,
    State_ dealt = PlayerTurn /\ Result dealt = "" /\
    g' = if (best (Player dealt) =? 21) || (best (Dealer dealt) =? 21)
         then finishRound dealt else dealt.
Proof.
  unfold Deal, player_draws, dealer_draws.
  set (g0 := set_State _ _).
  destruct (Draw (Deck_ g0)) as [[c1 d1]| |]; cbn [bind]; try discriminate.
  set (g1 := set_Player _ _).
  destruct (Draw (Deck_ g1)) as [[c2 d2]| |]; cbn [bind]; try discriminate.
  set (g2 := set_Dealer _ _).
  destruct (Draw (Deck_ g2)) as [[c3 d3]| |]; cbn [bind]; try discriminate.
  set (g3 := set_Player _ _).
  destruct (Draw (Deck_ g3)) as [[c4 d4]| |]; cbn [bind]; try discriminate.
  set (g4 := set_Dealer _ _). fold (best (Player g4)) (best (Dealer g4)).
  intros H. exists g4. split; [reflexivity|]. split; [reflexivity|].
  destruct ((best (Player g4) =? 21) || (best (Dealer g4) =? 21));
    now injection H.
Qed.

(** C10. When [Deal] gives both sides exactly 21, the round is resolved as
    a push; more generally two values of 21 push whatever the number of cards
    behind them, and the result of a resolution depends on the two values
    only: a two-card 21 has no precedence. *)
Theorem double_21_is_push :
  (forall g g',
     Deal g = Done g' ->
     best (Player g') = 21 -> best (Dealer g') = 21 ->
     State_ g' = RoundOver /\ Result g' = "Push. (21 vs 21)") /\
  (forall g,
     best (Player g) = 21 -> best (Dealer g) = 21 ->
     Result (finishRound g) = "Push. (21 vs 21)") /\
  (forall g1 g2,
     best (Player g1) = best (Player g2) ->
     best (Dealer g1) = best (Dealer g2) ->
     Result (finishRound g1) = Result (finishRound g2)).
Proof.
  assert (forall g, best (Player g) = 21 -> best (Dealer g) = 21 ->
                    Result (finishRound g) = "Push. (21 vs 21)") as Hpush.
  { intros g Hp Hd. rewrite finishRound_message, Hp, Hd. reflexivity. }
  split; [|split; [exact Hpush|]].
  - intros g g' HD Hp Hd.
    destruct (Deal_inv g g' HD) as (dealt & _ & _ & ->).
    destruct (finishRound_frame dealt) as (FS & _ & FP & FL).
    destruct ((best (Player dealt) =? 21) || (best (Dealer dealt) =? 21)) eqn:E.
    + rewrite FP in Hp. rewrite FL in Hd. split; [exact FS | now apply Hpush].
    + rewrite Hp in E. discriminate E.
  - intros g1 g2 Hp Hd. now rewrite !finishRound_message, Hp, Hd.
Qed.

Lemma double_21_is_push_witness :
  (exists g',
     Deal (game_of double_natural_deck [] [] WaitingDeal "") = Done g' /\
     Cards (Player g') = [card Hearts Ace; card Hearts King] /\
     Cards (Dealer g') = [card Clubs Ace; card Clubs King] /\
     State_ g' = RoundOver /\ Result g' = "Push. (21 vs 21)") /\
  Result (finishRound natural_vs_sevens_game) = "Push. (21 vs 21)".
Proof.
  destruct double_21_is_push as (HD & HF & _).
  split.
  - destruct (Deal (game_of double_natural_deck [] [] WaitingDeal ""))
      as [g'| |] eqn:E; try (vm_compute in E; discriminate E).
    exists g'. split; [reflexivity|].
    destruct (HD _ g' E) as [HS HR];
      try (vm_compute in E; injection E as <-; reflexivity).
    vm_compute in E. injection E as <-.
    split; [reflexivity|]. split; [reflexivity|].
    split; [exact HS | exact HR].
  - apply HF; reflexivity.
Defined.

(** ** The dealer's loop *)

Lemma hard_total_app cs c :
  hard_total (cs ++ [c]) = hard_total cs + hard_points c.
Proof. induction cs as [|x cs IH]; cbn [app hard_total]; lia. Qed.

Lemma sound_hand_intro h :
  forallb valid_card (Cards h) = true -> 11 * len (Cards h) <= Int.max_int ->
  sound_hand h = true.
Proof.
  intros Hv Hb. unfold sound_hand. rewrite Hv. apply Z.leb_le. exact Hb.
Qed.

(** The value of a sound hand is at least its hard total, and is the hard
    total as soon as it exceeds 21. *)
Lemma best_vs_hard h :
  sound_hand h = true ->
  hard_total (Cards h) <= best h /\
  (best h <= 21 \/ best h = hard_total (Cards h)).
Proof.
  intros Hs. unfold best. rewrite (Value_exact h Hs). cbn [fst].
  unfold best_by_rule.
  destruct (existsb is_ace (Cards h)); cbn [andb]; [|lia].
  destruct (hard_total (Cards h) + 10 <=? 21) eqn:E;
    [apply Z.leb_le in E|]; lia.
Qed.

(** A sound hand the dealer must draw on has a hard total of at most 16. *)
Lemma must_draw_hard h :
  sound_hand h = true -> must_draw h = true -> hard_total (Cards h) <= 16.
Proof.
  intros Hs. unfold must_draw, best, isSoft. rewrite (Value_exact h Hs).
  cbn [fst snd]. unfold best_by_rule, soft_by_rule.
  destruct (existsb is_ace (Cards h)); cbn [andb].
  - destruct (hard_total (Cards h) + 10 <=? 21) eqn:E.
    + rewrite andb_true_r, orb_true_iff, Z.ltb_lt, Z.eqb_eq. lia.
    + apply Z.leb_gt in E. rewrite andb_false_r, orb_false_r, Z.ltb_lt. lia.
  - rewrite andb_false_r, orb_false_r, Z.ltb_lt. lia.
Qed.

Lemma must_draw_false h :
  must_draw h = false ->
  17 <= best h /\ ~ (best h = 17 /\ isSoft h = true).
Proof.
  unfold must_draw. rewrite orb_false_iff, andb_false_iff, Z.ltb_ge, Z.eqb_neq.
  intros [H1 [H2|H2]]; split; try lia; intros [? ?]; congruence.
Qed.

Lemma dealer_must_draw_eq g : dealer_must_draw g = must_draw (Dealer g).
Proof. reflexivity. Qed.

(** More fuel does not change a result. *)
Lemma dealer_loop_mono n : forall g g',
  dealer_loop n g = Done g' ->
  forall m, (n <= m)%nat -> dealer_loop m g = Done g'.
Proof.
  induction n as [|n IH]; intros g g' H m Hm; [discriminate H|].
  destruct m as [|m]; [lia|]. cbn [dealer_loop] in *.
  destruct (dealer_must_draw g); [|exact H].
  destruct (dealer_draws g) as [g1| |]; cbn [bind] in *; try discriminate H.
  apply IH; [exact H | lia].
Qed.

(** The loop on a sound deck and a sound dealer hand: with some fuel, and
    more than 17 minus the hard total, it ends, having drawn the cards [drawn] one by
    one while the guard held, and stops on a hand the guard rejects. *)
Lemma dealer_loop_runs n : forall g,
  sound_deck (Deck_ g) = true ->
  sound_hand (Dealer g) = true ->
  Z.max 0 (17 - hard_total (Cards (Dealer g))) < Z.of_nat n ->
  exists drawn d',
    dealer_loop n g =
      Done (set_Dealer (set_Deck g d') {| Cards := Cards (Dealer g) ++ drawn |}) /\
    draw_many (length drawn) (Deck_ g) = Done (drawn, d') /\
    sound_deck d' = true /\
    forallb valid_card drawn = true /\
    (forall k, (k < length drawn)%nat ->
       must_draw {| Cards := Cards (Dealer g) ++ take k drawn |} = true) /\
    must_draw {| Cards := Cards (Dealer g) ++ drawn |} = false /\
    len (Cards (Dealer g) ++ drawn) <= Z.max (len (Cards (Dealer g))) 17.
Proof.
  induction n as [|n IH]; intros g Hd Hh Hn.
  - cbn in Hn. lia.
  - cbn [dealer_loop]. rewrite dealer_must_draw_eq.
    destruct (must_draw (Dealer g)) eqn:E.
    + pose proof (must_draw_hard _ Hh E) as H16.
      pose proof (sound_hand_inv _ Hh) as [Hv _].
      pose proof (hard_total_bounds _ Hv) as [[Hlen _] _].
      destruct (Draw_sound _ Hd) as (c & d1 & HD & Hc & Hd1).
      rewrite (dealer_draws_Done g c d1 HD). cbn [bind].
      set (g1 := set_Dealer (set_Deck g d1) (Add (Dealer g) c)).
      pose proof (hard_points_bounds c Hc) as Hp.
      assert (sound_hand (Dealer g1) = true) as Hh1.
      { apply sound_hand_intro; cbn [g1 set_Dealer Dealer Add Cards].
        - rewrite forallb_app, Hv. cbn. now rewrite Hc.
        - unfold len in *. rewrite length_app, max_int_val. cbn [length]. lia. }
      destruct (IH g1 Hd1 Hh1) as (drawn & d' & HL & HM & Hd' & Hvd & Hk & Hstop & Hlen').
      { cbn [g1 set_Dealer Dealer Add Cards]. rewrite hard_total_app. lia. }
      cbn [g1 set_Dealer set_Deck Dealer Deck_ Add Cards] in HL, HM, Hk, Hstop, Hlen'.
      rewrite <- app_assoc in HL, Hstop, Hlen'. cbn [app] in HL, Hstop, Hlen'.
      exists (c :: drawn), d'. cbn [length draw_many].
      rewrite HD. cbn [bind]. rewrite HM. cbn [bind].
      split; [exact HL|]. split; [reflexivity|]. split; [exact Hd'|].
      split; [cbn [forallb]; now rewrite Hc, Hvd|].
      split; [|split; [exact Hstop|]].
      * intros [|k] Hlt.
        -- cbn [take]. rewrite app_nil_r. destruct (Dealer g). exact E.
        -- cbn [take]. specialize (Hk k ltac:(lia)).
           rewrite <- app_assoc in Hk. exact Hk.
      * unfold len in *. rewrite !length_app in Hlen'. cbn [length] in Hlen'.
        rewrite length_app. cbn [length]. lia.
    + exists [], (Deck_ g). rewrite app_nil_r. cbn [length draw_many take].
      split; [destruct g as [? ? [?] ? ?]; reflexivity|].
      split; [reflexivity|]. split; [exact Hd|]. split; [reflexivity|].
      split; [intros k Hk; lia|].
      split; [destruct (Dealer g); exact E | lia].
Qed.

(** [PlayerStand] in the player's turn, on a sound deck and dealer hand:
    with [stand_fuel] or more it returns, and the same game whatever the
    fuel. *)
Lemma PlayerStand_runs g :
  State_ g = PlayerTurn ->
  sound_deck (Deck_ g) = true ->
  sound_hand (Dealer g) = true ->
  exists drawn d',
    (forall fuel, (stand_fuel <= fuel)%nat ->
       PlayerStand fuel g =
       Done (finishRound
               (set_Dealer (set_Deck (set_State g DealerTurn) d')
                           {| Cards := Cards (Dealer g) ++ drawn |}))) /\
    draw_many (length drawn) (Deck_ g) = Done (drawn, d') /\
    sound_deck d' = true /\
    forallb valid_card drawn = true /\
    (forall k, (k < length drawn)%nat ->
       must_draw {| Cards := Cards (Dealer g) ++ take k drawn |} = true) /\
    must_draw {| Cards := Cards (Dealer g) ++ drawn |} = false /\
    len (Cards (Dealer g) ++ drawn) <= Z.max (len (Cards (Dealer g))) 17.
Proof.
  intros HS Hd Hh.
  pose proof (sound_hand_inv _ Hh) as [Hv _].
  pose proof (hard_total_bounds _ Hv) as [[Hlen _] _].
  pose proof (len_nonneg (Cards (Dealer g))) as Hl0.
  destruct (dealer_loop_runs stand_fuel (set_State g DealerTurn) Hd Hh)
    as (drawn & d' & HL & HM & Hd' & Hvd & Hk & Hstop & Hbound).
  { cbn [set_State Dealer]. unfold stand_fuel. lia. }
  exists drawn, d'. split; [|now repeat split].
  intros fuel Hf. unfold PlayerStand. rewrite HS. cbn [State_eqb negb].
  rewrite (dealer_loop_mono _ _ _ HL fuel Hf). reflexivity.
Qed.

(** C4. In the player's turn, [PlayerStand] makes the dealer draw card
    after card exactly as long as the dealer's hand is worth less than 17, or
    is a soft 17, and resolves the round on the first hand that is neither:
    the dealer ends at 17 or more and not on a soft 17; a dealer who starts
    at 16, or on a soft 17, draws at least one card, a dealer who starts on a
    hard 17 draws none; the state is then [RoundOver]. *)
Theorem PlayerStand_dealer_policy (g : Game) :
  State_ g = PlayerTurn ->
  sound_deck (Deck_ g) = true ->
  sound_hand (Dealer g) = true ->
  exists drawn d' g',
    (forall fuel, (stand_fuel <= fuel)%nat -> PlayerStand fuel g = Done g') /\
    draw_many (length drawn) (Deck_ g) = Done (drawn, d') /\
    Deck_ g' = d' /\
    Player g' = Player g /\
    Cards (Dealer g') = Cards (Dealer g) ++ drawn /\
    (forall k, (k < length drawn)%nat ->
       must_draw {| Cards := Cards (Dealer g) ++ take k drawn |} = true) /\
    must_draw (Dealer g') = false /\
    17 <= best (Dealer g') /\
    ~ (best (Dealer g') = 17 /\ isSoft (Dealer g') = true) /\
    (best (Dealer g) = 16 -> drawn <> []) /\
    (best (Dealer g) = 17 -> isSoft (Dealer g) = true -> drawn <> []) /\
    (best (Dealer g) = 17 -> isSoft (Dealer g) = false -> drawn = []) /\
    State_ g' = RoundOver /\
    Result g' = round_message (best (Player g)) (best (Dealer g')).
Proof.
  intros HS Hd Hh.
  destruct (PlayerStand_runs g HS Hd Hh)
    as (drawn & d' & HR & HM & _ & _ & Hk & Hstop & _).
  set (g1 := set_Dealer (set_Deck (set_State g DealerTurn) d')
                        {| Cards := Cards (Dealer g) ++ drawn |}) in *.
  destruct (finishRound_frame g1) as (FS & FK & FP & FL).
  exists drawn, d', (finishRound g1).
  rewrite FS, FK, FP, FL, finishRound_message.
  cbn [g1 set_Dealer set_Deck set_State Dealer Player Deck_ Cards].
  destruct (must_draw_false _ Hstop) as [H17 Hns].
  assert ({| Cards := Cards (Dealer g) ++ [] |} = Dealer g) as Hnil.
  { rewrite app_nil_r. destruct (Dealer g). reflexivity. }
  repeat split; try assumption.
  - intros H16 ->. rewrite Hnil in Hstop.
    unfold must_draw in Hstop. rewrite H16 in Hstop. discriminate Hstop.
  - intros E17 Es ->. rewrite Hnil in Hstop.
    unfold must_draw in Hstop. rewrite E17, Es in Hstop. discriminate Hstop.
  - intros E17 Es. destruct drawn as [|c drawn]; [reflexivity|].
    specialize (Hk 0%nat ltac:(cbn; lia)). cbn [take] in Hk.
    rewrite app_nil_r in Hk. destruct (Dealer g) as [cs]. cbn [Cards] in Hk.
    unfold must_draw in Hk. rewrite E17, Es in Hk. discriminate Hk.
Qed.

Lemma PlayerStand_dealer_policy_witness :
  (exists g', PlayerStand stand_fuel dealer_hard_16_game = Done g' /\
              Cards (Dealer g') =
                [card Clubs Ten; card Diamonds Six; card Spades Nine] /\
              State_ g' = RoundOver) /\
  (exists g', PlayerStand stand_fuel dealer_soft_17_game = Done g' /\
              Cards (Dealer g') =
                [card Clubs Ace; card Diamonds Six; card Spades Nine;
                 card Diamonds Three] /\
              17 <= best (Dealer g') /\ State_ g' = RoundOver) /\
  (exists g', PlayerStand stand_fuel dealer_hard_17_game = Done g' /\
              Cards (Dealer g') = [card Clubs Ten; card Diamonds Seven] /\
              State_ g' = RoundOver).
Proof.
  split; [|split].
  - destruct (PlayerStand_dealer_policy dealer_hard_16_game
                eq_refl eq_refl eq_refl)
      as (drawn & d' & g' & HR & _ & _ & _ & _ & _ & _ & _ & _ & _ & _ & _ & HS & _).
    specialize (HR stand_fuel (Nat.le_refl _)).
    exists g'. split; [exact HR|]. split; [|exact HS].
    vm_compute in HR. injection HR as <-. reflexivity.
  - destruct (PlayerStand_dealer_policy dealer_soft_17_game
                eq_refl eq_refl eq_refl)
      as (drawn & d' & g' & HR & _ & _ & _ & _ & _ & _ & H17 & _ & _ & _ & _ & HS & _).
    specialize (HR stand_fuel (Nat.le_refl _)).
    exists g'. split; [exact HR|]. split; [|split; [exact H17 | exact HS]].
    vm_compute in HR. injection HR as <-. reflexivity.
  - destruct (PlayerStand_dealer_policy dealer_hard_17_game
                eq_refl eq_refl eq_refl)
      as (drawn & d' & g' & HR & _ & _ & _ & _ & _ & _ & _ & _ & _ & _ & _ & HS & _).
    specialize (HR stand_fuel (Nat.le_refl _)).
    exists g'. split; [exact HR|]. split; [|exact HS].
    vm_compute in HR. injection HR as <-. reflexivity.
Defined.

(** ** Reachable games *)

Lemma sound_game_inv g :
  sound_game g = true ->
  sound_deck (Deck_ g) = true /\
  forallb valid_card (Cards (Player g)) = true /\
  len (Cards (Player g)) <= 22 /\
  forallb valid_card (Cards (Dealer g)) = true /\
  len (Cards (Dealer g)) <= 18 /\
  (State_ g = PlayerTurn -> Result g = "" /\ best (Player g) <= 21).
Proof.
  unfold sound_game. rewrite !andb_true_iff, !Z.leb_le.
  intros (((((Hd & Hp) & Hlp) & Hv) & Hlv) & Hs).
  do 5 (split; [assumption|]).
  intros E. rewrite E in Hs. cbn [State_eqb] in Hs.
  apply andb_true_iff in Hs as [H1 H2].
  split; [now apply String.eqb_eq in H1 | now apply Z.leb_le in H2].
Qed.

Lemma sound_game_intro g :
  sound_deck (Deck_ g) = true ->
  forallb valid_card (Cards (Player g)) = true ->
  len (Cards (Player g)) <= 22 ->
  forallb valid_card (Cards (Dealer g)) = true ->
  len (Cards (Dealer g)) <= 18 ->
  (State_ g = PlayerTurn -> Result g = "" /\ best (Player g) <= 21) ->
  sound_game g = true.
Proof.
  intros Hd Hp Hlp Hv Hlv Hs. unfold sound_game.
  rewrite Hd, Hp, Hv. cbn [andb].
  apply Z.leb_le in Hlp, Hlv. rewrite Hlp, Hlv. cbn [andb].
  destruct (State_eqb (State_ g) PlayerTurn) eqn:E; [|reflexivity].
  apply State_eqb_eq in E. destruct (Hs E) as [-> H21].
  apply Z.leb_le in H21. unfold best in H21. now rewrite H21.
Qed.

Lemma short_hand_sound h n :
  forallb valid_card (Cards h) = true -> len (Cards h) <= n -> n <= 22 ->
  sound_hand h = true.
Proof.
  intros Hv Hl Hn. apply sound_hand_intro; [exact Hv|].
  rewrite max_int_val. lia.
Qed.

(** A resolved game is sound as soon as its deck and hands are. *)
Lemma sound_game_finishRound g :
  sound_deck (Deck_ g) = true ->
  forallb valid_card (Cards (Player g)) = true ->
  len (Cards (Player g)) <= 22 ->
  forallb valid_card (Cards (Dealer g)) = true ->
  len (Cards (Dealer g)) <= 18 ->
  sound_game (finishRound g) = true.
Proof.
  intros Hd Hp Hlp Hv Hlv.
  destruct (finishRound_frame g) as (FS & FK & FP & FL).
  apply sound_game_intro; rewrite ?FK, ?FP, ?FL; try assumption.
  rewrite FS. discriminate.
Qed.

Lemma NewDeck_sound shoe0 r :
  52 * shoe0 <= Int.max_int ->
  exists d, NewDeck shoe0 r = Done d /\ sound_deck d = true.
Proof.
  intros Hb. destruct (NewDeck_Done shoe0 r Hb) as (d & HN & Hs & HP).
  exists d. split; [exact HN|]. unfold sound_deck.
  rewrite (forallb_Permutation _ _ _ HP (fresh_cards_valid _)), andb_true_r.
  apply deck_ok_intro; rewrite ?Hs, ?(Permutation_len _ _ HP);
    rewrite ?len_fresh_cards by lia; rewrite ?max_int_val in *; lia.
Qed.

(** Four draws from a sound deck give four valid cards and a sound deck. *)
Lemma four_sound_draws d :
  sound_deck d = true ->
  exists c1 d1 c2 d2 c3 d3 c4 d4,
    Draw d = Done (c1, d1) /\ Draw d1 = Done (c2, d2) /\
    Draw d2 = Done (c3, d3) /\ Draw d3 = Done (c4, d4) /\
    forallb valid_card [c1; c2; c3; c4] = true /\ sound_deck d4 = true.
Proof.
  intros H0.
  destruct (Draw_sound d H0) as (c1 & d1 & E1 & V1 & H1).
  destruct (Draw_sound d1 H1) as (c2 & d2 & E2 & V2 & H2).
  destruct (Draw_sound d2 H2) as (c3 & d3 & E3 & V3 & H3).
  destruct (Draw_sound d3 H3) as (c4 & d4 & E4 & V4 & H4).
  exists c1, d1, c2, d2, c3, d3, c4, d4. cbn [forallb].
  rewrite V1, V2, V3, V4. auto 10.
Qed.

(** Two valid cards are worth at most 21. *)
Lemma best_two_cards c1 c2 :
  valid_card c1 = true -> valid_card c2 = true ->
  best {| Cards := [c1; c2] |} <= 21.
Proof.
  intros V1 V2.
  assert (sound_hand {| Cards := [c1; c2] |} = true) as Hs.
  { apply (short_hand_sound _ 2);
      [cbn [Cards forallb]; now rewrite V1, V2 | unfold len; cbn [Cards length]; lia | lia]. }
  destruct (best_vs_hard _ Hs) as [_ [H|H]]; [exact H|]. rewrite H.
  cbn [Cards hard_total].
  pose proof (hard_points_bounds c1 V1). pose proof (hard_points_bounds c2 V2).
  lia.
Qed.

Lemma Deal_sound g g' :
  sound_game g = true -> Deal g = Done g' -> sound_game g' = true.
Proof.
  intros (Hd & _)%sound_game_inv HD.
  destruct (four_sound_draws _ Hd)
    as (c1 & d1 & c2 & d2 & c3 & d3 & c4 & d4 & E1 & E2 & E3 & E4 & Hv & Hd4).
  cbn [forallb] in Hv. rewrite !andb_true_iff in Hv.
  destruct Hv as (V1 & V2 & V3 & V4 & _).
  rewrite (Deal_unfold g _ _ _ _ _ _ _ _ E1 E2 E3 E4) in HD.
  injection HD as <-.
  destruct (_ || _).
  - apply sound_game_finishRound;
      unfold len; cbn [Deck_ Player Dealer Cards forallb length];
      rewrite ?V1, ?V2, ?V3, ?V4; try reflexivity; try assumption; lia.
  - apply sound_game_intro;
      unfold len; cbn [Deck_ Player Dealer State_ Result Cards forallb length];
      rewrite ?V1, ?V2, ?V3, ?V4; try reflexivity; try assumption; try lia.
    intros _. split; [reflexivity | now apply best_two_cards].
Qed.

Lemma PlayerHit_sound g g' :
  sound_game g = true -> PlayerHit g = Done g' -> sound_game g' = true.
Proof.
  intros Hg HH. pose proof (sound_game_inv g Hg)
    as (Hd & Hp & Hlp & Hv & Hlv & Hs).
  unfold PlayerHit in HH.
  destruct (State_eqb (State_ g) PlayerTurn) eqn:E; cbn [negb] in HH;
    [|now injection HH as <-].
  apply State_eqb_eq in E. destruct (Hs E) as [HR H21].
  destruct (Draw_sound _ Hd) as (c & d' & HD & Hc & Hd').
  rewrite (player_draws_Done g c d' HD) in HH. cbn [bind] in HH.
  set (g1 := set_Player (set_Deck g d') (Add (Player g) c)) in HH.
  assert (sound_hand (Player g) = true) as Hsp
    by (apply (short_hand_sound _ 22); [assumption | lia..]).
  destruct (best_vs_hard _ Hsp) as [Hhb _].
  pose proof (hard_total_bounds _ Hp) as [[Hlen _] _].
  assert (forallb valid_card (Cards (Player g1)) = true) as Hp1.
  { cbn [g1 set_Player Player Add Cards]. rewrite forallb_app, Hp.
    cbn [forallb]. now rewrite Hc. }
  assert (len (Cards (Player g1)) <= 22) as Hl1.
  { cbn [g1 set_Player Player Add Cards]. unfold len in *.
    rewrite length_app. cbn [length]. lia. }
  fold (best (Player g1)) in HH. rewrite Z.gtb_ltb in HH.
  destruct (21 <? best (Player g1)) eqn:E21; injection HH as <-.
  - apply sound_game_finishRound; assumption.
  - apply Z.ltb_ge in E21. apply sound_game_intro; try assumption.
    intros _. split; [exact HR | exact E21].
Qed.

Lemma PlayerStand_sound fuel g g' :
  sound_game g = true -> PlayerStand fuel g = Done g' -> sound_game g' = true.
Proof.
  intros Hg HT. pose proof (sound_game_inv g Hg)
    as (Hd & Hp & Hlp & Hv & Hlv & Hs).
  destruct (State_eqb (State_ g) PlayerTurn) eqn:E.
  - apply State_eqb_eq in E.
    assert (sound_hand (Dealer g) = true) as Hsd
      by (apply (short_hand_sound _ 18); [assumption | lia..]).
    destruct (PlayerStand_runs g E Hd Hsd)
      as (drawn & d' & HR & _ & Hd' & Hvd & _ & _ & Hb).
    set (g1 := set_Dealer _ _) in HR.
    assert (PlayerStand (Nat.max fuel stand_fuel) g = Done g') as HT'.
    { revert HT. unfold PlayerStand. rewrite E. cbn [negb].
      destruct (dealer_loop fuel _) as [g2| |] eqn:EL; cbn [bind];
        try discriminate.
      intros HT. rewrite (dealer_loop_mono _ _ _ EL) by lia. exact HT. }
    rewrite HR in HT' by lia. injection HT' as <-.
    apply sound_game_finishRound;
      cbn [g1 set_Dealer set_Deck set_State Deck_ Player Dealer Cards];
      try assumption.
    + now rewrite forallb_app, Hv, Hvd.
    + lia.
  - unfold PlayerStand in HT. rewrite E in HT. cbn [negb] in HT.
    now injection HT as <-.
Qed.

(** Every reachable game is sound. *)
Lemma reachable_sound g : reachable g -> sound_game g = true.
Proof.
  induction 1 as [shoe0 r g Hb HN | g g' _ IH HD | g g' _ IH HH
                 | fuel g g' _ IH HT].
  - unfold NewGame in HN. destruct (NewDeck_sound shoe0 r Hb) as (d & HE & Hd).
    rewrite HE in HN. cbn [bind] in HN. injection HN as <-.
    apply sound_game_intro;
      unfold len; cbn [Deck_ Player Dealer State_ Cards forallb length];
      try assumption; try reflexivity; try lia.
    discriminate.
  - exact (Deal_sound _ _ IH HD).
  - exact (PlayerHit_sound _ _ IH HH).
  - exact (PlayerStand_sound _ _ _ IH HT).
Qed.

(** ** Termination *)

Lemma wrap_in_range z : Int.in_range (Int.wrap z).
Proof.
  unfold Int.in_range, Int.min_int, Int.max_int, Int.wrap.
  pose proof (Z.mod_pos_bound (z + 2 ^ 63) (2 ^ 64) ltac:(lia)). lia.
Qed.

(** The ace counter of the first loop of [Value] is an [int]. *)
Lemma score_fold_aces_range cs : forall total aces,
  aces <= Int.max_int ->
  snd (fold_left score_step cs (total, aces)) <= Int.max_int.
Proof.
  induction cs as [|c cs IH]; intros total aces Ha; [exact Ha|].
  cbn [fold_left]. unfold score_step at 2.
  destruct (Rank_ c =? Ace).
  - apply IH. apply wrap_in_range.
  - destruct (Ten <=? Rank_ c); apply IH; exact Ha.
Qed.

(** The demotion loop of [Value] is always left through its guard: the
    counter it is run with never cuts it short. *)
Lemma Value_loop_exits h :
  let '(total, aces) := Value_demoted h in
  (total >? 21) && (aces >? 0) = false.
Proof.
  unfold Value_demoted.
  pose proof (score_fold_aces_range (Cards h) 0 0 ltac:(rewrite max_int_val; lia))
    as Hr.
  destruct (fold_left score_step (Cards h) (0, 0)) as [total aces].
  cbn [snd] in Hr. destruct (Z.le_gt_cases 0 aces) as [Hpos|Hneg].
  - apply demote_exits; [rewrite Z2Nat.id; lia | exact Hr].
  - rewrite Z2Nat.nonpos by lia. cbn [demote].
    rewrite (Z.gtb_ltb aces). assert ((0 <? aces) = false) as ->
      by (apply Z.ltb_ge; lia). apply andb_false_r.
Qed.

(** C9. Every operation returns on every reachable game: [NewGame]
    returns a game, and from a reachable game so do [Deal], [PlayerHit] and,
    given [stand_fuel] units of fuel or more, [PlayerStand], with a result
    that does not depend on the fuel.  The dealer's loop ends from every sound
    deck and dealer hand: a drawn card strictly increases the hard total,
    although a draw on a soft 17 can bring the value under 17 and keep the
    loop going.  The inner loop of [Value] always leaves through its
    guard. *)
Theorem engine_terminates :
  (forall shoe0 r,
     52 * shoe0 <= Int.max_int -> exists g, NewGame shoe0 r = Done g) /\
  (forall g,
     reachable g ->
     (exists g', Deal g = Done g') /\
     (exists g', PlayerHit g = Done g') /\
     (exists g', forall fuel, (stand_fuel <= fuel)%nat ->
                              PlayerStand fuel g = Done g')) /\
  (forall g,
     sound_deck (Deck_ g) = true -> sound_hand (Dealer g) = true ->
     exists g', forall fuel, (stand_fuel <= fuel)%nat ->
                             dealer_loop fuel g = Done g') /\
  (forall h c,
     valid_card c = true ->
     hard_total (Cards h) < hard_total (Cards (Add h c))) /\
  (exists h c,
     sound_hand h = true /\ valid_card c = true /\
     best h = 17 /\ isSoft h = true /\
     best (Add h c) < 17 /\ must_draw (Add h c) = true) /\
  (forall h,
     let '(total, aces) := Value_demoted h in
     (total >? 21) && (aces >? 0) = false).
Proof.
  split; [|split; [|split; [|split; [|split]]]].
  - intros shoe0 r Hb. unfold NewGame.
    destruct (NewDeck_sound shoe0 r Hb) as (d & -> & _). cbn [bind]. eauto.
  - intros g Hg%reachable_sound.
    pose proof (sound_game_inv g Hg) as (Hd & Hp & Hlp & Hv & Hlv & Hs).
    pose proof (sound_deck_inv _ Hd) as [Hok _].
    split; [|split].
    + destruct (four_draws _ Hok)
        as (c1 & d1 & c2 & d2 & c3 & d3 & c4 & d4 & E1 & E2 & E3 & E4 & _).
      rewrite (Deal_unfold g _ _ _ _ _ _ _ _ E1 E2 E3 E4). eauto.
    + unfold PlayerHit. destruct (negb _); [eauto|].
      destruct (Draw_Done _ Hok) as (_ & c & d' & _ & HD & _).
      rewrite (player_draws_Done g c d' HD). cbn [bind].
      destruct (_ >? 21); eauto.
    + destruct (State_eqb (State_ g) PlayerTurn) eqn:E.
      * apply State_eqb_eq in E.
        assert (sound_hand (Dealer g) = true) as Hsd
          by (apply (short_hand_sound _ 18); [assumption | lia..]).
        destruct (PlayerStand_runs g E Hd Hsd) as (drawn & d' & HR & _).
        eauto.
      * exists g. intros fuel _. unfold PlayerStand. now rewrite E.
  - intros g Hd Hh.
    pose proof (sound_hand_inv _ Hh) as [Hv _].
    pose proof (hard_total_bounds _ Hv) as [[Hlen _] _].
    pose proof (len_nonneg (Cards (Dealer g))) as Hl0.
    destruct (dealer_loop_runs stand_fuel g Hd Hh) as (drawn & d' & HL & _).
    { unfold stand_fuel. lia. }
    eexists. intros fuel Hf. exact (dealer_loop_mono _ _ _ HL fuel Hf).
  - intros h c Hc. cbn [Add Cards]. rewrite hard_total_app.
    pose proof (hard_points_bounds c Hc). lia.
  - exists soft_17_hand, (card Spades Nine).
    repeat split; vm_compute; congruence.
  - exact Value_loop_exits.
Qed.

Lemma engine_terminates_witness :
  (exists g0 g1 g2 g3,
     NewGame 1 sample_tape = Done g0 /\ Deal g0 = Done g1 /\
     State_ g1 = PlayerTurn /\
     Cards (Dealer g1) = [card Hearts Two; card Clubs Six] /\
     PlayerStand 0 g1 = OutOfFuel /\ PlayerStand 1 g1 = OutOfFuel /\
     (forall fuel, (stand_fuel <= fuel)%nat -> PlayerStand fuel g1 = Done g2) /\
     Cards (Dealer g2) = [card Hearts Two; card Clubs Six; card Clubs Ten] /\
     Result g2 = "Dealer wins. (18 vs 13)" /\
     PlayerHit g1 = Done g3 /\
     Cards (Player g3) = [card Diamonds Ace; card Clubs Two; card Clubs Ten] /\
     (exists g4, Deal g1 = Done g4)) /\
  (exists g',
     sound_deck (Deck_ dealer_soft_17_game) = true /\
     sound_hand (Dealer dealer_soft_17_game) = true /\
     dealer_loop 2 dealer_soft_17_game = OutOfFuel /\
     (forall fuel, (stand_fuel <= fuel)%nat ->
                   dealer_loop fuel dealer_soft_17_game = Done g') /\
     Cards (Dealer g') =
       [card Clubs Ace; card Diamonds Six; card Spades Nine;
        card Diamonds Three]).
Proof.
  destruct engine_terminates as (HN & HR & HL & _).
  split.
  - assert (52 * 1 <= Int.max_int) as Hb by (rewrite max_int_val; lia).
    destruct (HN 1 sample_tape Hb) as [g0 E0].
    pose proof (reach_new 1 sample_tape g0 Hb E0) as R0.
    destruct (HR g0 R0) as ((g1 & E1) & _).
    pose proof (reach_deal g0 g1 R0 E1) as R1.
    destruct (HR g1 R1) as (E4 & (g3 & E3) & (g2 & E2)).
    pose proof (E2 stand_fuel (Nat.le_refl _)) as E2c.
    exists g0, g1, g2, g3.
    split; [exact E0|]. split; [exact E1|].
    vm_compute in E0. injection E0 as <-.
    vm_compute in E1. injection E1 as <-.
    split; [reflexivity|]. split; [reflexivity|].
    split; [vm_compute; reflexivity|]. split; [vm_compute; reflexivity|].
    split; [exact E2|].
    vm_compute in E2c. injection E2c as <-.
    split; [reflexivity|]. split; [reflexivity|].
    split; [exact E3|].
    vm_compute in E3. injection E3 as <-.
    split; [reflexivity | exact E4].
  - destruct (HL dealer_soft_17_game eq_refl eq_refl) as (g' & EL).
    pose proof (EL stand_fuel (Nat.le_refl _)) as ELc.
    exists g'. split; [reflexivity|]. split; [reflexivity|].
    split; [vm_compute; reflexivity|]. split; [exact EL|].
    vm_compute in ELc. injection ELc as <-. reflexivity.
Defined.

(* ===================================================================== *)
(** * Further properties of the engine *)
(* ===================================================================== *)

(** ** Scoring *)

Lemma hard_total_Permutation cs cs' :
  cs' ≡ₚ cs -> hard_total cs' = hard_total cs.
Proof.
  induction 1 as [|x l l' _ IH|x y l|l l' l'' _ IH1 _ IH2];
    cbn [hard_total]; lia.
Qed.

Lemma ace_count_Permutation cs cs' :
  cs' ≡ₚ cs -> ace_count cs' = ace_count cs.
Proof.
  induction 1 as [|x l l' _ IH|x y l|l l' l'' _ IH1 _ IH2];
    cbn [ace_count]; lia.
Qed.

Lemma sound_hand_Permutation h h' :
  Cards h' ≡ₚ Cards h -> sound_hand h = true -> sound_hand h' = true.
Proof.
  intros HP [Hv Hb]%sound_hand_inv. apply sound_hand_intro.
  - exact (forallb_Permutation _ _ _ HP Hv).
  - now rewrite (Permutation_len _ _ HP).
Qed.

(** X1. The value of a hand does not depend on the order of its cards:
    a sound hand and any rearrangement of it have the same [best] and the
    same soft flag. *)
Theorem Value_order_irrelevant (h h' : Hand) :
  sound_hand h = true -> Cards h' ≡ₚ Cards h -> Value h' = Value h.
Proof.
  intros Hs HP. pose proof (sound_hand_Permutation h h' HP Hs) as Hs'.
  rewrite (Value_exact h Hs), (Value_exact h' Hs').
  unfold best_by_rule, soft_by_rule. rewrite !has_ace_count.
  now rewrite (hard_total_Permutation _ _ HP), (ace_count_Permutation _ _ HP).
Qed.

Lemma Value_order_irrelevant_witness :
  Value {| Cards := [card Spades Nine; card Clubs Ace; card Hearts Ace] |} =
  Value {| Cards := [card Clubs Ace; card Spades Nine; card Hearts Ace] |}.
Proof.
  apply Value_order_irrelevant; [reflexivity|].
  cbn [Cards]. apply perm_swap.
Defined.

Lemma score_fold_ranks cs cs' : forall acc,
  map Rank_ cs = map Rank_ cs' ->
  fold_left score_step cs acc = fold_left score_step cs' acc.
Proof.
  revert cs'. induction cs as [|c cs IH]; intros [|c' cs'] acc H;
    try discriminate H; [reflexivity|].
  cbn [map] in H. injection H as Hr Ht. cbn [fold_left].
  replace (score_step acc c') with (score_step acc c)
    by (unfold score_step; destruct acc; now rewrite Hr).
  now apply IH.
Qed.

Lemma hard_fold_ranks cs cs' : forall acc,
  map Rank_ cs = map Rank_ cs' ->
  fold_left hard_step cs acc = fold_left hard_step cs' acc.
Proof.
  revert cs'. induction cs as [|c cs IH]; intros [|c' cs'] acc H;
    try discriminate H; [reflexivity|].
  cbn [map] in H. injection H as Hr Ht. cbn [fold_left].
  replace (hard_step acc c') with (hard_step acc c)
    by (unfold hard_step; destruct acc; now rewrite Hr).
  now apply IH.
Qed.

(** X2. [Value] never looks at a suit: two hands with the same ranks in
    the same positions have the same value, whatever their suits (and
    whatever the ranks are). *)
Theorem Value_ignores_suits (h h' : Hand) :
  map Rank_ (Cards h) = map Rank_ (Cards h') -> Value h = Value h'.
Proof.
  intros H. unfold Value, Value_demoted.
  now rewrite (score_fold_ranks _ _ _ H), (hard_fold_ranks _ _ _ H).
Qed.

Lemma Value_ignores_suits_witness :
  Value {| Cards := [card Spades Ace; card Clubs Seven] |} =
  Value {| Cards := [card Hearts Ace; card Diamonds Seven] |}.
Proof. apply Value_ignores_suits. reflexivity. Defined.

(** X3. On a sound hand [best] is the hard total or the hard total plus
    10, it exceeds 21 exactly when the hard total does, and a soft hand is
    worth between 11 and 21. *)
Theorem bust_iff_hard_total_over_21 (h : Hand) :
  sound_hand h = true ->
  (best h = hard_total (Cards h) \/ best h = hard_total (Cards h) + 10) /\
  (21 < best h <-> 21 < hard_total (Cards h)) /\
  (isSoft h = true -> 11 <= best h <= 21).
Proof.
  intros Hs. pose proof (sound_hand_inv h Hs) as [Hv _].
  pose proof (hard_total_bounds _ Hv) as [_ [Hah _]].
  pose proof (ace_count_bounds (Cards h)) as Ha.
  unfold best, isSoft. rewrite (Value_exact h Hs). cbn [fst snd].
  unfold best_by_rule, soft_by_rule. rewrite has_ace_count.
  destruct (0 <? ace_count (Cards h)) eqn:E1; cbn [andb].
  - apply Z.ltb_lt in E1.
    destruct (hard_total (Cards h) + 10 <=? 21) eqn:E2;
      [apply Z.leb_le in E2 | apply Z.leb_gt in E2];
      (split; [lia|]); (split; [lia|]); intros; try discriminate; lia.
  - split; [lia|]. split; [lia|]. discriminate.
Qed.

Lemma bust_iff_hard_total_over_21_witness :
  let h := {| Cards := [card Spades Ace; card Clubs Six] |} in
  sound_hand h = true /\ 11 <= best h <= 21.
Proof.
  intros h. split; [reflexivity|].
  apply (bust_iff_hard_total_over_21 h eq_refl). reflexivity.
Defined.

(** X4. A sound hand without an ace is worth the plain sum of its cards
    (ten and above counting 10) and is never soft. *)
Theorem Value_without_aces (h : Hand) :
  sound_hand h = true ->
  existsb is_ace (Cards h) = false ->
  Value h = (non_ace_sum (Cards h), false).
Proof.
  intros Hs Hna. rewrite (Value_exact h Hs).
  unfold best_by_rule, soft_by_rule. rewrite Hna. cbn [andb].
  pose proof (non_ace_sum_hard (Cards h)) as Hn.
  rewrite has_ace_count in Hna. apply Z.ltb_ge in Hna.
  pose proof (ace_count_bounds (Cards h)). f_equal. lia.
Qed.

Lemma Value_without_aces_witness :
  Value {| Cards := [card Spades King; card Clubs Seven; card Hearts Five] |}
  = (22, false).
Proof.
  exact (Value_without_aces
           {| Cards := [card Spades King; card Clubs Seven; card Hearts Five] |}
           eq_refl eq_refl).
Defined.

Lemma sound_hand_Add h c :
  sound_hand h = true -> valid_card c = true ->
  hard_total (Cards h) <= 21 -> sound_hand (Add h c) = true.
Proof.
  intros [Hv _]%sound_hand_inv Hc H21.
  pose proof (hard_total_bounds _ Hv) as [[Hlen _] _].
  apply sound_hand_intro; cbn [Add Cards].
  - rewrite forallb_app, Hv. cbn [forallb]. now rewrite Hc.
  - unfold len in *. rewrite length_app, max_int_val. cbn [length]. lia.
Qed.

(** X5. A soft hand cannot bust on one more card: whatever valid card is
    added to a sound soft hand, the new value is at most 21. *)
Theorem soft_hand_survives_a_hit (h : Hand) (c : Card) :
  sound_hand h = true -> valid_card c = true ->
  isSoft h = true -> best (Add h c) <= 21.
Proof.
  intros Hs Hc Hsoft.
  assert (hard_total (Cards h) <= 11) as H11.
  { revert Hsoft. unfold isSoft. rewrite (Value_exact h Hs). cbn [snd].
    unfold soft_by_rule. rewrite andb_true_iff, Z.leb_le. lia. }
  pose proof (sound_hand_Add h c Hs Hc ltac:(lia)) as Hs'.
  destruct (best_vs_hard _ Hs') as [_ [H|H]]; [exact H|].
  rewrite H. cbn [Add Cards]. rewrite hard_total_app.
  pose proof (hard_points_bounds c Hc). lia.
Qed.

Lemma soft_hand_survives_a_hit_witness :
  best (Add {| Cards := [card Spades Ace; card Clubs Ace] |}
            (card Hearts King)) <= 21.
Proof. apply soft_hand_survives_a_hit; reflexivity. Defined.

(** X6. A bust is final: if a sound hand is worth more than 21, it is
    still worth more than 21 after any valid card is added. *)
Theorem bust_hand_stays_bust (h : Hand) (c : Card) :
  sound_hand h = true -> sound_hand (Add h c) = true ->
  valid_card c = true -> 21 < best h -> 21 < best (Add h c).
Proof.
  intros Hs Hs' Hc Hb.
  destruct (best_vs_hard _ Hs) as [_ [H|H]]; [lia|].
  destruct (best_vs_hard _ Hs') as [Hge _].
  cbn [Add Cards] in Hge. rewrite hard_total_app in Hge.
  pose proof (hard_points_bounds c Hc). lia.
Qed.

Lemma bust_hand_stays_bust_witness :
  21 < best (Add {| Cards := [card Spades King; card Clubs Six;
                              card Hearts Six] |} (card Diamonds Ace)).
Proof. apply bust_hand_stays_bust; reflexivity. Defined.

(** ** Display *)

Lemma append_assoc (a b c : string) : (a +:+ b) +:+ c = a +:+ (b +:+ c).
Proof.
  induction a as [|x a IH]; [reflexivity|].
  change (String x a +:+ b) with (String x (a +:+ b)).
  change (String x (a +:+ b) +:+ c) with (String x ((a +:+ b) +:+ c)).
  now rewrite IH.
Qed.

Lemma append_empty_r (a : string) : a +:+ "" = a.
Proof.
  induction a as [|x a IH]; [reflexivity|].
  change (String x a +:+ "") with (String x (a +:+ "")). now rewrite IH.
Qed.

Lemma rank_names_missing r :
  r < Ace \/ King < r -> map_index rank_names r = "".
Proof.
  unfold Ace, King. intros Hr. unfold map_index, rank_names.
  rewrite (not_elem_of_list_to_map_1 _ r); [reflexivity|].
  cbn [fmap list_fmap fst]. unfold Ace, Two, Three, Four, Five, Six, Seven,
    Eight, Nine, Ten, Jack, Queen, King.
  intros Hin. repeat (apply elem_of_cons in Hin as [Hin|Hin]; [lia|]).
  now apply elem_of_nil in Hin.
Qed.

Lemma suit_names_missing s :
  s < Clubs \/ Spades < s -> map_index suit_names s = "".
Proof.
  unfold Clubs, Spades. intros Hs. unfold map_index, suit_names.
  rewrite (not_elem_of_list_to_map_1 _ s); [reflexivity|].
  cbn [fmap list_fmap fst]. unfold Clubs, Diamonds, Hearts, Spades.
  intros Hin. repeat (apply elem_of_cons in Hin as [Hin|Hin]; [lia|]).
  now apply elem_of_nil in Hin.
Qed.

(** A rank of the table has a non-empty name that does not start with
    "<". *)
Lemma rank_names_present r :
  Ace <= r <= King ->
  exists a s, map_index rank_names r = String a s /\ a <> "<"%char.
Proof.
  unfold Ace, King. intros Hr.
  assert (r = 1 \/ r = 2 \/ r = 3 \/ r = 4 \/ r = 5 \/ r = 6 \/ r = 7 \/
          r = 8 \/ r = 9 \/ r = 10 \/ r = 11 \/ r = 12 \/ r = 13) as H by lia.
  repeat (destruct H as [->|H];
          [eexists _, _; split; [vm_compute; reflexivity | discriminate]|]).
  subst r. eexists _, _; split; [vm_compute; reflexivity | discriminate].
Qed.

Lemma suit_names_present s :
  Clubs <= s <= Spades ->
  exists a t, map_index suit_names s = String a t /\ a <> "<"%char.
Proof.
  unfold Clubs, Spades. intros Hs.
  assert (s = 0 \/ s = 1 \/ s = 2 \/ s = 3) as H by lia.
  repeat (destruct H as [->|H];
          [eexists _, _; split; [vm_compute; reflexivity | discriminate]|]).
  subst s. eexists _, _; split; [vm_compute; reflexivity | discriminate].
Qed.

(** The text of a card is empty, or starts with a character other than
    "<". *)
Lemma Card_String_head c :
  Card_String c = "" \/
  exists a s, Card_String c = String a s /\ a <> "<"%char.
Proof.
  unfold Card_String.
  destruct (Z_le_dec Ace (Rank_ c)) as [H1|H1];
    [destruct (Z_le_dec (Rank_ c) King) as [H2|H2]|].
  - destruct (rank_names_present (Rank_ c) (conj H1 H2)) as (a & s & -> & Ha).
    right. exists a, (s +:+ map_index suit_names (Suit_ c)). now split.
  - rewrite rank_names_missing by lia.
    destruct (Z_le_dec Clubs (Suit_ c)) as [H3|H3];
      [destruct (Z_le_dec (Suit_ c) Spades) as [H4|H4]|].
    + destruct (suit_names_present (Suit_ c) (conj H3 H4)) as (a & s & -> & Ha).
      right. exists a, s. now split.
    + left. now rewrite suit_names_missing by lia.
    + left. now rewrite suit_names_missing by lia.
  - rewrite rank_names_missing by lia.
    destruct (Z_le_dec Clubs (Suit_ c)) as [H3|H3];
      [destruct (Z_le_dec (Suit_ c) Spades) as [H4|H4]|].
    + destruct (suit_names_present (Suit_ c) (conj H3 H4)) as (a & s & -> & Ha).
      right. exists a, s. now split.
    + left. now rewrite suit_names_missing by lia.
    + left. now rewrite suit_names_missing by lia.
Qed.

(** X7. [Card.String] reads two maps, and a missing key reads as the
    empty string: the text of a card is empty exactly when neither its rank
    nor its suit is in the tables; a rank outside 1..13 leaves the suit glyph
    alone, and a suit outside 0..3 leaves the rank symbol alone. *)
Theorem Card_String_missing_keys (c : Card) :
  (Card_String c = "" <->
   (Rank_ c < Ace \/ King < Rank_ c) /\ (Suit_ c < Clubs \/ Spades < Suit_ c)) /\
  (Rank_ c < Ace \/ King < Rank_ c ->
   Card_String c = map_index suit_names (Suit_ c)) /\
  (Suit_ c < Clubs \/ Spades < Suit_ c ->
   Card_String c = map_index rank_names (Rank_ c)).
Proof.
  split; [split|split].
  - intros He. unfold Card_String in He. split.
    + destruct (Z_lt_dec (Rank_ c) Ace); [now left|].
      destruct (Z_lt_dec King (Rank_ c)); [now right|].
      destruct (rank_names_present (Rank_ c)) as (a & s & E & _); [lia|].
      rewrite E in He. discriminate He.
    + destruct (Z_lt_dec (Suit_ c) Clubs); [now left|].
      destruct (Z_lt_dec Spades (Suit_ c)); [now right|].
      destruct (suit_names_present (Suit_ c)) as (a & s & E & _); [lia|].
      rewrite E in He. destruct (map_index rank_names (Rank_ c));
        discriminate He.
  - intros [Hr Hs]. unfold Card_String.
    now rewrite rank_names_missing, suit_names_missing.
  - intros Hr. unfold Card_String. now rewrite rank_names_missing.
  - intros Hs. unfold Card_String.
    now rewrite suit_names_missing, append_empty_r.
Qed.

Lemma Card_String_missing_keys_witness :
  Card_String (card 9 0) = "" /\
  Card_String (card Spades 14) = map_index suit_names Spades /\
  Card_String (card 4 Queen) = "Q".
Proof.
  split; [|split].
  - apply (Card_String_missing_keys (card 9 0)).
    unfold Ace, King, Clubs, Spades. cbn [card Rank_ Suit_]. lia.
  - apply (Card_String_missing_keys (card Spades 14)).
    unfold King. cbn [card Rank_]. lia.
  - apply (Card_String_missing_keys (card 4 Queen)).
    unfold Spades. cbn [card Suit_]. lia.
Defined.

Lemma valid_card_fresh c : valid_card c = true -> In c (fresh_cards 1).
Proof.
  intros Hc. apply (count_occ_In Card_eq_dec).
  rewrite (count_fresh_cards 1 c Hc). cbn. lia.
Qed.

(** X8. The 52 valid cards have 52 different texts: two valid cards with
    the same [Card.String] are the same card. *)
Theorem Card_String_injective (c1 c2 : Card) :
  valid_card c1 = true -> valid_card c2 = true ->
  Card_String c1 = Card_String c2 -> c1 = c2.
Proof.
  intros H1%valid_card_fresh H2%valid_card_fresh He.
  assert (forallb (fun a =>
            forallb (fun b =>
              if Card_eq_dec a b then true
              else negb (String.eqb (Card_String a) (Card_String b)))
              (fresh_cards 1)) (fresh_cards 1) = true) as Hall
    by (vm_compute; reflexivity).
  rewrite forallb_forall in Hall. specialize (Hall c1 H1).
  rewrite forallb_forall in Hall. specialize (Hall c2 H2).
  destruct (Card_eq_dec c1 c2) as [E|_]; [exact E|].
  rewrite He, String.eqb_refl in Hall. discriminate Hall.
Qed.

Lemma Card_String_injective_witness :
  Card_String (card Spades Ten) = "10♠" /\ card Spades Ten = card 3 10.
Proof.
  split; [reflexivity|].
  apply Card_String_injective; reflexivity.
Defined.

Lemma String_loop_concat cs : forall i out,
  cs <> [] -> 0 <= i ->
  String_loop i out cs =
  (if i >? 0 then out +:+ " " else out)
  +:+ String.concat " " (map Card_String cs).
Proof.
  induction cs as [|c cs IH]; intros i out Hne Hi; [contradiction|].
  cbn [String_loop map]. destruct cs as [|c' cs].
  - reflexivity.
  - rewrite IH by (discriminate || lia).
    assert ((i + 1 >? 0) = true) as -> by (rewrite Z.gtb_ltb; apply Z.ltb_lt; lia).
    cbn [map String.concat]. now rewrite !append_assoc.
Qed.

Lemma Hand_String_closed (h : Hand) :
  Hand_String h =
  match Cards h with
  | [] => "<empty>"
  | _ :: _ => String.concat " " (map Card_String (Cards h))
  end.
Proof.
  unfold Hand_String. destruct (Cards h) as [|c cs] eqn:E; [reflexivity|].
  assert ((len (c :: cs) =? 0) = false) as ->
    by (apply Z.eqb_neq; unfold len; cbn [length]; lia).
  now rewrite String_loop_concat by (discriminate || lia).
Qed.

(** X9. [Hand.String] renders an empty hand as "<empty>" and any other
    hand as the texts of its cards, in order, separated by single spaces. *)
Theorem Hand_String_spec (h : Hand) :
  Hand_String h =
  match Cards h with
  | [] => "<empty>"
  | _ :: _ => String.concat " " (map Card_String (Cards h))
  end.
Proof. exact (Hand_String_closed h). Qed.

Lemma concat_snoc (xs : list string) (y : string) :
  xs <> [] ->
  String.concat " " (xs ++ [y]) = (String.concat " " xs +:+ " ") +:+ y.
Proof.
  induction xs as [|x xs IH]; intros Hne; [contradiction|].
  destruct xs as [|x' xs].
  - cbn. now rewrite append_assoc.
  - change (String.concat " " ((x :: x' :: xs) ++ [y]))
      with (x +:+ " " +:+ String.concat " " ((x' :: xs) ++ [y])).
    rewrite IH by discriminate.
    change (String.concat " " (x :: x' :: xs))
      with (x +:+ " " +:+ String.concat " " (x' :: xs)).
    now rewrite !append_assoc.
Qed.

(** X10. Rendering after [Add]: the text of a hand with one more card is
    the text of the card alone when the hand was empty, and otherwise the
    old text, a space and the text of the card. *)
Theorem Hand_String_Add (h : Hand) (c : Card) :
  Hand_String (Add h c) =
  match Cards h with
  | [] => Card_String c
  | _ :: _ => (Hand_String h +:+ " ") +:+ Card_String c
  end.
Proof.
  rewrite !Hand_String_closed. cbn [Add Cards].
  destruct (Cards h) as [|c0 cs]; [reflexivity|].
  change ((c0 :: cs) ++ [c]) with (c0 :: (cs ++ [c])).
  change (c0 :: (cs ++ [c])) with ((c0 :: cs) ++ [c]).
  rewrite map_app. cbn [map]. rewrite concat_snoc by discriminate.
  reflexivity.
Qed.

(** X11. The text "<empty>" stands for the empty hand only: no hand with
    a card in it, whatever the card, is rendered as "<empty>". *)
Theorem Hand_String_empty_only (h : Hand) :
  Hand_String h = "<empty>" <-> Cards h = [].
Proof.
  rewrite Hand_String_closed. destruct (Cards h) as [|c cs]; [tauto|].
  split; [|discriminate]. intros He. exfalso. cbn [map] in He.
  destruct (Card_String_head c) as [E|(a & s & E & Ha)].
  - rewrite E in He. destruct (map Card_String cs); discriminate He.
  - rewrite E in He. destruct (map Card_String cs); cbn in He;
      injection He as Hh _; now apply Ha.
Qed.

(** ** Drawing from the stock *)

(** [Draw] on a deck that still has cards: the last card, nothing else
    touched. *)
Lemma Draw_last d cs c :
  cards d = cs ++ [c] -> len (cards d) <= Int.max_int ->
  Draw d = Done (c, {| cards := cs; rng := rng d; shoe := shoe d |}).
Proof.
  intros Hc Hb. unfold Draw, refill.
  assert (len (cards d) = len cs + 1) as Hl
    by (rewrite Hc; unfold len; rewrite length_app; cbn [length]; lia).
  pose proof (len_nonneg cs) as H0.
  assert ((len (cards d) =? 0) = false) as -> by (apply Z.eqb_neq; lia).
  cbn [bind]. rewrite sub_exact by in_range.
  replace (len (cards d) - 1) with (len cs) by lia.
  unfold at_index. assert ((0 <=? len cs) = true) as -> by (apply Z.leb_le; lia).
  unfold len at 1 2. rewrite Nat2Z.id, Hc.
  rewrite lookup_app_r, Nat.sub_diag by lia. cbn [lookup list_lookup bind].
  now rewrite take_app_length.
Qed.

Lemma draw_many_stock n : forall d,
  (n <= length (cards d))%nat -> len (cards d) <= Int.max_int ->
  draw_many n d =
  Done (rev (drop (length (cards d) - n) (cards d)),
        {| cards := take (length (cards d) - n) (cards d);
           rng := rng d; shoe := shoe d |}).
Proof.
  induction n as [|n IH]; intros d Hn Hb.
  - cbn [draw_many]. rewrite Nat.sub_0_r, drop_all, take_ge by lia.
    destruct d; reflexivity.
  - destruct (exists_last (l := cards d)) as (cs & c & Hc).
    { intros E. rewrite E in Hn. cbn in Hn. lia. }
    cbn [draw_many]. rewrite (Draw_last d cs c Hc Hb). cbn [bind].
    assert (length (cards d) = S (length cs)) as Hl
      by (rewrite Hc, length_app; cbn [length]; lia).
    rewrite IH; cbn [cards rng shoe]; [|lia|unfold len in *; lia].
    cbn [bind]. rewrite Hl, Hc. cbn [Nat.sub].
    rewrite drop_app_le, take_app_le, rev_unit by lia. reflexivity.
Qed.

(** X12. While the stock lasts, [Draw] hands out the cards of the slice
    from its end backwards and touches neither the random source nor the shoe
    count: [n] draws from a deck of at least [n] cards return its last [n]
    cards in reverse order and leave the rest in place. *)
Theorem draws_come_from_the_end (n : nat) (d : Deck) :
  (n <= length (cards d))%nat ->
  len (cards d) <= Int.max_int ->
  exists d',
    draw_many n d = Done (rev (drop (length (cards d) - n) (cards d)), d') /\
    cards d' = take (length (cards d) - n) (cards d) /\
    rng d' = rng d /\ shoe d' = shoe d.
Proof.
  intros Hn Hb. eexists. split; [exact (draw_many_stock n d Hn Hb)|].
  repeat split.
Qed.

Lemma draws_come_from_the_end_witness :
  exists d',
    draw_many 3 stand_deck =
      Done ([card Spades Nine; card Diamonds Three; card Hearts Five], d') /\
    cards d' = [card Spades Two; card Clubs Nine] /\
    rng d' = sample_tape.
Proof.
  destruct (draws_come_from_the_end 3 stand_deck) as (d' & H1 & H2 & H3 & _).
  - cbn. lia.
  - vm_compute. discriminate.
  - exists d'. split; [exact H1|]. split; [exact H2 | exact H3].
Defined.

Lemma draw_many_snoc n : forall d cs d1 c d2,
  draw_many n d = Done (cs, d1) -> Draw d1 = Done (c, d2) ->
  draw_many (S n) d = Done (cs ++ [c], d2).
Proof.
  induction n as [|n IH]; intros d cs d1 c d2 Hm HD.
  - cbn [draw_many] in Hm. injection Hm as <- <-.
    cbn [draw_many]. rewrite HD. reflexivity.
  - cbn [draw_many] in Hm.
    destruct (Draw d) as [[c0 d0]| |] eqn:E0; cbn [bind] in Hm;
      try discriminate Hm.
    destruct (draw_many n d0) as [[cs0 d3]| |] eqn:E1; cbn [bind] in Hm;
      try discriminate Hm.
    injection Hm as <- <-.
    change (draw_many (S (S n)) d)
      with (bind (Draw d) (fun first => let '(c, d1) := first in
              bind (draw_many (S n) d1) (fun rest => let '(cs, d2) := rest in
                Done (c :: cs, d2)))).
    rewrite E0. cbn [bind]. rewrite (IH d0 cs0 d3 c d2 E1 HD). reflexivity.
Qed.

(** X13. When the stock is used up the next draw opens a fresh shoe: on a
    good deck holding [k] cards, [k + 1] draws return the [k] cards from the
    end backwards and then the last card of the fresh cards as [shuffle]
    orders them on the deck's own random source; that source has then been
    advanced by [52 * shoe - 1] numbers, and the other [52 * shoe - 1] cards
    of the shuffled shoe remain. *)
Theorem draw_after_last_card_refills (d : Deck) :
  deck_ok d = true ->
  exists c d',
    draw_many (S (length (cards d))) d = Done (rev (cards d) ++ [c], d') /\
    shuffle (fresh_cards (shoe d)) (rng d) = Done (cards d' ++ [c], rng d') /\
    cards d' ++ [c] ≡ₚ fresh_cards (shoe d) /\
    tape (rng d') = tape (rng d) /\
    pos (rng d') = (pos (rng d) + (52 * Z.to_nat (shoe d) - 1))%nat /\
    len (cards d') = 52 * shoe d - 1 /\
    shoe d' = shoe d.
Proof.
  intros Hok. pose proof (deck_ok_inv d Hok) as (H1 & Hb & Hl).
  pose proof (draw_many_stock (length (cards d)) d (Nat.le_refl _)
                ltac:(lia)) as Hm.
  rewrite Nat.sub_diag, drop_0, take_0 in Hm.
  set (d1 := {| cards := []; rng := rng d; shoe := shoe d |}) in Hm.
  assert (deck_ok d1 = true) as Hok1
    by (apply deck_ok_intro; unfold len; cbn [d1 cards shoe length]; lia).
  destruct (reset_rng d1) as (cs & r' & HR & HS & HP & HT & HN).
  { unfold shoe_ok. cbn [d1 shoe]. rewrite andb_true_iff, !Z.leb_le. tauto. }
  cbn [d1 shoe rng] in HR, HS, HP, HT, HN.
  destruct (Draw_Done d1 Hok1) as (d0 & c & d' & Hr & HD & Hc & Hg & Hs & _).
  assert (refill d1 = reset d1) as Hrr by reflexivity.
  rewrite Hrr, HR in Hr. injection Hr as <-.
  cbn [cards rng] in Hc, Hg. cbn [d1 shoe] in Hs.
  exists c, d'. split; [exact (draw_many_snoc _ _ _ _ _ _ Hm HD)|].
  rewrite <- Hc, Hg. split; [exact HS|]. split; [exact HP|].
  split; [exact HT|]. split; [exact HN|]. split; [|exact Hs].
  pose proof (Permutation_len _ _ HP) as HL.
  rewrite len_fresh_cards in HL by lia.
  unfold len in *. rewrite Hc, length_app in HL. cbn [length] in HL. lia.
Qed.

Lemma draw_after_last_card_refills_witness :
  exists d',
    draw_many 6 stand_deck =
      Done ([card Spades Nine; card Diamonds Three; card Hearts Five;
             card Clubs Nine; card Spades Two; card Diamonds Ace], d') /\
    cards d' ++ [card Diamonds Ace] <> fresh_cards 1 /\
    len (cards d') = 51 /\ pos (rng d') = 51%nat.
Proof.
  destruct (draw_after_last_card_refills stand_deck eq_refl)
    as (c & d' & H1 & _ & _ & _ & H5 & H6 & _).
  exists d'.
  assert (c = card Diamonds Ace) as ->.
  { vm_compute in H1. now injection H1 as <- _. }
  split; [exact H1|]. split; [|split; [exact H6 | exact H5]].
  vm_compute in H1. injection H1 as <-.
  intros E. vm_compute in E. discriminate E.
Defined.

Lemma Deal_last_four (g : Game) (rest : list Card)
    (p1 d1 p2 d2 : Card) :
  cards (Deck_ g) = rest ++ [d2; p2; d1; p1] ->
  len (cards (Deck_ g)) <= Int.max_int ->
  exists g',
    Deal g = Done g' /\
    Cards (Player g') = [p1; p2] /\
    Cards (Dealer g') = [d1; d2] /\
    Deck_ g' = {| cards := rest; rng := rng (Deck_ g);
                  shoe := shoe (Deck_ g) |}.
Proof.
  intros Hc Hb.
  assert (len (cards (Deck_ g)) = len rest + 4) as Hl
    by (rewrite Hc; unfold len; rewrite length_app; cbn [length]; lia).
  pose proof (len_nonneg rest) as H0.
  set (k1 := {| cards := rest ++ [d2; p2; d1]; rng := rng (Deck_ g);
                shoe := shoe (Deck_ g) |}).
  set (k2 := {| cards := rest ++ [d2; p2]; rng := rng (Deck_ g);
                shoe := shoe (Deck_ g) |}).
  set (k3 := {| cards := rest ++ [d2]; rng := rng (Deck_ g);
                shoe := shoe (Deck_ g) |}).
  set (k4 := {| cards := rest; rng := rng (Deck_ g);
                shoe := shoe (Deck_ g) |}).
  assert (Draw (Deck_ g) = Done (p1, k1)) as E1.
  { apply Draw_last; [|exact Hb]. rewrite Hc. now rewrite <- app_assoc. }
  assert (Draw k1 = Done (d1, k2)) as E2.
  { apply (Draw_last k1 (rest ++ [d2; p2]) d1).
    - cbn [k1 cards]. now rewrite <- app_assoc.
    - unfold len in *. cbn [k1 cards]. rewrite length_app. cbn [length]. lia. }
  assert (Draw k2 = Done (p2, k3)) as E3.
  { apply (Draw_last k2 (rest ++ [d2]) p2).
    - cbn [k2 cards]. now rewrite <- app_assoc.
    - unfold len in *. cbn [k2 cards]. rewrite length_app. cbn [length]. lia. }
  assert (Draw k3 = Done (d2, k4)) as E4.
  { apply (Draw_last k3 rest d2); [reflexivity|].
    unfold len in *. cbn [k3 cards]. rewrite length_app. cbn [length]. lia. }
  rewrite (Deal_unfold g _ _ _ _ _ _ _ _ E1 E2 E3 E4).
  eexists. split; [reflexivity|].
  destruct (_ || _);
    [destruct (finishRound_frame
                 {| Deck_ := k4; Player := {| Cards := [p1; p2] |};
                    Dealer := {| Cards := [d1; d2] |};
                    State_ := PlayerTurn; Result := "" |})
       as (_ & -> & -> & ->)|]; repeat split.
Qed.

(** X14. [Deal] from a stock of at least four cards takes the last four
    cards of the slice: the last and the third from the end go to the player,
    the second and the fourth from the end to the dealer; the rest of the
    slice, the random source and the shoe count are left as they were. *)
Theorem Deal_takes_last_four (g : Game) (rest : list Card)
    (p1 d1 p2 d2 : Card) :
  cards (Deck_ g) = rest ++ [d2; p2; d1; p1] ->
  len (cards (Deck_ g)) <= Int.max_int ->
  exists g',
    Deal g = Done g' /\
    Cards (Player g') = [p1; p2] /\
    Cards (Dealer g') = [d1; d2] /\
    Deck_ g' = {| cards := rest; rng := rng (Deck_ g);
                  shoe := shoe (Deck_ g) |}.
Proof. exact (Deal_last_four g rest p1 d1 p2 d2). Qed.

Lemma Deal_takes_last_four_witness :
  exists g',
    Deal finished_game = Done g' /\
    Cards (Player g') = [card Spades Ten; card Hearts Five] /\
    Cards (Dealer g') = [card Diamonds Seven; card Clubs Nine] /\
    cards (Deck_ g') = [card Spades Two].
Proof.
  destruct (Deal_takes_last_four finished_game [card Spades Two]
              (card Spades Ten) (card Diamonds Seven)
              (card Hearts Five) (card Clubs Nine) eq_refl)
    as (g' & HD & HP & HL & HK).
  - vm_compute. discriminate.
  - exists g'. split; [exact HD|]. split; [exact HP|]. split; [exact HL|].
    now rewrite HK.
Defined.

Lemma finishRound_closed g :
  finishRound g =
  set_Result (set_State g RoundOver)
             (round_message (best (Player g)) (best (Dealer g))).
Proof.
  unfold finishRound, round_message, best. cbn [Player Dealer set_State].
  rewrite !Z.gtb_ltb.
  destruct (21 <? fst (Value (Player g))); [reflexivity|].
  destruct (21 <? fst (Value (Dealer g))); [reflexivity|].
  destruct (fst (Value (Dealer g)) <? fst (Value (Player g))); [reflexivity|].
  destruct (fst (Value (Player g)) <? fst (Value (Dealer g))); reflexivity.
Qed.

(** X15. Resolving a resolved round changes nothing:
    [finishRound] is idempotent. *)
Theorem finishRound_idempotent (g : Game) :
  finishRound (finishRound g) = finishRound g.
Proof.
  rewrite (finishRound_closed (finishRound g)).
  destruct (finishRound_frame g) as (_ & _ & -> & ->).
  rewrite (finishRound_closed g). reflexivity.
Qed.

(** ** What every reachable game looks like *)

(** What a returning dealer loop leaves: only the deck and the dealer's
    hand change, and the hand grows at its end. *)
Lemma dealer_loop_inv n : forall g g',
  dealer_loop n g = Done g' ->
  Player g' = Player g /\ State_ g' = State_ g /\ Result g' = Result g /\
  exists drawn, Cards (Dealer g') = Cards (Dealer g) ++ drawn.
Proof.
  induction n as [|n IH]; intros g g' H; [discriminate H|].
  cbn [dealer_loop] in H. destruct (dealer_must_draw g).
  - unfold dealer_draws in H.
    destruct (Draw (Deck_ g)) as [[c d]| |]; cbn [bind] in H;
      try discriminate H.
    destruct (IH _ _ H) as (HP & HS & HR & drawn & HD).
    cbn [set_Dealer set_Deck Player State_ Result Dealer Add Cards] in *.
    repeat split; try assumption.
    exists (c :: drawn). rewrite HD, <- app_assoc. reflexivity.
  - injection H as <-. repeat split. exists []. now rewrite app_nil_r.
Qed.

Lemma round_inv_finishRound g :
  (2 <= length (Cards (Player g)))%nat ->
  (2 <= length (Cards (Dealer g)))%nat ->
  round_inv (finishRound g).
Proof.
  intros HP HD. destruct (finishRound_frame g) as (FS & _ & FP & FL).
  unfold round_inv. rewrite FS, FP, FL, finishRound_message. auto.
Qed.

Lemma Deal_round g g' :
  sound_game g = true -> Deal g = Done g' -> round_inv g'.
Proof.
  intros (Hd & _)%sound_game_inv HD.
  destruct (four_sound_draws _ Hd)
    as (c1 & d1 & c2 & d2 & c3 & d3 & c4 & d4 & E1 & E2 & E3 & E4 & Hv & _).
  cbn [forallb] in Hv. rewrite !andb_true_iff in Hv.
  destruct Hv as (V1 & V2 & V3 & V4 & _).
  rewrite (Deal_unfold g _ _ _ _ _ _ _ _ E1 E2 E3 E4) in HD.
  injection HD as <-.
  destruct (_ || _) eqn:E.
  - apply round_inv_finishRound; cbn [Player Dealer Cards length]; lia.
  - apply orb_false_iff in E as [_ EL]. apply Z.eqb_neq in EL.
    cbn [Dealer] in EL.
    pose proof (best_two_cards c1 c3 V1 V3).
    pose proof (best_two_cards c2 c4 V2 V4).
    unfold round_inv. cbn [State_ Result Player Dealer Cards length].
    repeat split; try lia.
Qed.

Lemma PlayerHit_round g g' :
  round_inv g -> PlayerHit g = Done g' -> round_inv g'.
Proof.
  intros Hg HH. unfold PlayerHit in HH.
  destruct (State_eqb (State_ g) PlayerTurn) eqn:E; cbn [negb] in HH;
    [|now injection HH as <-].
  apply State_eqb_eq in E. unfold round_inv in Hg. rewrite E in Hg.
  destruct Hg as (HR & HL & HD21 & HP & _).
  unfold player_draws in HH.
  destruct (Draw (Deck_ g)) as [[c d]| |]; cbn [bind] in HH;
    try discriminate HH.
  set (g1 := set_Player (set_Deck g d) (Add (Player g) c)) in HH.
  assert ((2 <= length (Cards (Player g1)))%nat) as HP1.
  { cbn [g1 set_Player Player Add Cards]. rewrite length_app. lia. }
  fold (best (Player g1)) in HH. rewrite Z.gtb_ltb in HH.
  destruct (21 <? best (Player g1)) eqn:E21; injection HH as <-.
  - apply round_inv_finishRound; [exact HP1|].
    cbn [g1 set_Player set_Deck Dealer]. lia.
  - apply Z.ltb_ge in E21. unfold round_inv.
    change (State_ g1) with (State_ g). rewrite E.
    change (Result g1) with (Result g). change (Dealer g1) with (Dealer g).
    auto.
Qed.

Lemma PlayerStand_round fuel g g' :
  round_inv g -> PlayerStand fuel g = Done g' -> round_inv g'.
Proof.
  intros Hg HT. unfold PlayerStand in HT.
  destruct (State_eqb (State_ g) PlayerTurn) eqn:E; cbn [negb] in HT;
    [|now injection HT as <-].
  apply State_eqb_eq in E. unfold round_inv in Hg. rewrite E in Hg.
  destruct Hg as (_ & HL & _ & HP & _).
  destruct (dealer_loop fuel (set_State g DealerTurn)) as [g1| |] eqn:EL;
    cbn [bind] in HT; try discriminate HT.
  injection HT as <-.
  destruct (dealer_loop_inv _ _ _ EL) as (HP1 & _ & _ & drawn & HD1).
  cbn [set_State Player Dealer] in HP1, HD1.
  apply round_inv_finishRound.
  - now rewrite HP1.
  - rewrite HD1, length_app. lia.
Qed.

(** Every reachable game satisfies [round_inv]. *)
Lemma reachable_round g : reachable g -> round_inv g.
Proof.
  induction 1 as [shoe0 r g Hb HN | g g' Hg IH HD | g g' _ IH HH
                 | fuel g g' _ IH HT].
  - unfold NewGame in HN.
    destruct (NewDeck shoe0 r) as [d| |]; cbn [bind] in HN;
      try discriminate HN.
    injection HN as <-. unfold round_inv. cbn. auto.
  - exact (Deal_round _ _ (reachable_sound _ Hg) HD).
  - exact (PlayerHit_round _ _ IH HH).
  - exact (PlayerStand_round _ _ _ IH HT).
Qed.

(** X16. Callers never see [DealerTurn]: it is entered and left inside
    [PlayerStand].  And a game still in [WaitingDeal] has never been dealt:
    its hands and its result are empty. *)
Theorem DealerTurn_never_observed (g : Game) :
  reachable g ->
  State_ g <> DealerTurn /\
  (State_ g = WaitingDeal ->
   Cards (Player g) = [] /\ Cards (Dealer g) = [] /\ Result g = "").
Proof.
  intros Hg%reachable_round. unfold round_inv in Hg.
  destruct (State_ g); try contradiction; split; try discriminate; auto.
Qed.

(** X17. On a reachable game the result is non-empty exactly in state
    [RoundOver], and it is then the message that the two hands of the game
    produce. *)
Theorem Result_set_iff_RoundOver (g : Game) :
  reachable g ->
  (Result g <> "" <-> State_ g = RoundOver) /\
  (State_ g = RoundOver ->
   Result g = round_message (best (Player g)) (best (Dealer g))).
Proof.
  intros Hg%reachable_round. unfold round_inv in Hg.
  destruct (State_ g); try contradiction.
  - destruct Hg as (_ & _ & ->). split; [|discriminate].
    split; [congruence | discriminate].
  - destruct Hg as (-> & _). split; [|discriminate].
    split; [congruence | discriminate].
  - destruct Hg as (-> & _). split; [|reflexivity].
    split; [reflexivity|]. intros _. apply round_message_nonempty.
Qed.

Lemma PlayerTurn_shape_aux g :
  reachable g -> State_ g = PlayerTurn ->
  length (Cards (Dealer g)) = 2%nat /\ best (Dealer g) < 21 /\
  (2 <= length (Cards (Player g)))%nat /\ best (Player g) <= 21.
Proof.
  intros Hg%reachable_round HS. unfold round_inv in Hg. rewrite HS in Hg.
  tauto.
Qed.

(** X18. During the player's turn of a reachable game the dealer holds
    exactly the two cards dealt, worth less than 21, and the player holds at
    least two cards worth at most 21. *)
Theorem PlayerTurn_shape (g : Game) :
  reachable g -> State_ g = PlayerTurn ->
  length (Cards (Dealer g)) = 2%nat /\ best (Dealer g) < 21 /\
  (2 <= length (Cards (Player g)))%nat /\ best (Player g) <= 21.
Proof. exact (PlayerTurn_shape_aux g). Qed.

(** A first round played on [sample_tape]: a new one-deck game, dealt,
    then stood on. *)
Lemma sample_round :
  exists g0 g1 g2,
    NewGame 1 sample_tape = Done g0 /\ Deal g0 = Done g1 /\
    PlayerStand stand_fuel g1 = Done g2 /\
    State_ g0 = WaitingDeal /\ State_ g1 = PlayerTurn /\
    State_ g2 = RoundOver /\
    reachable g0 /\ reachable g1 /\ reachable g2.
Proof.
  destruct (NewGame 1 sample_tape) as [g0| |] eqn:E0;
    try (vm_compute in E0; discriminate E0).
  assert (reachable g0) as R0.
  { apply (reach_new 1 sample_tape g0); [rewrite max_int_val; lia | exact E0]. }
  vm_compute in E0. injection E0 as E0.
  destruct (Deal g0) as [g1| |] eqn:E1;
    try (subst g0; vm_compute in E1; discriminate E1).
  assert (reachable g1) as R1 by exact (reach_deal g0 g1 R0 E1).
  assert (State_ g0 = WaitingDeal) as S0 by (subst g0; reflexivity).
  assert (State_ g1 = PlayerTurn) as S1.
  { subst g0. vm_compute in E1. injection E1 as <-. reflexivity. }
  destruct (PlayerStand stand_fuel g1) as [g2| |] eqn:E2.
  - assert (reachable g2) as R2 by exact (reach_stand _ g1 g2 R1 E2).
    assert (State_ g2 = RoundOver) as S2.
    { revert E2. subst g0. vm_compute in E1. injection E1 as <-.
      intros E2. vm_compute in E2. injection E2 as <-. reflexivity. }
    exists g0, g1, g2. auto 10.
  - exfalso. revert E2. subst g0. vm_compute in E1. injection E1 as <-.
    intros E2. vm_compute in E2. discriminate E2.
  - exfalso. revert E2. subst g0. vm_compute in E1. injection E1 as <-.
    intros E2. vm_compute in E2. discriminate E2.
Qed.

Lemma DealerTurn_never_observed_witness :
  exists g0,
    NewGame 1 sample_tape = Done g0 /\ State_ g0 <> DealerTurn /\
    Cards (Player g0) = [] /\ Cards (Dealer g0) = [] /\ Result g0 = "".
Proof.
  destruct sample_round as (g0 & _ & _ & E0 & _ & _ & S0 & _ & _ & R0 & _).
  destruct (DealerTurn_never_observed g0 R0) as [H1 H2].
  exists g0. split; [exact E0|]. split; [exact H1 | exact (H2 S0)].
Defined.

Lemma Result_set_iff_RoundOver_witness :
  exists g1 g2,
    PlayerStand stand_fuel g1 = Done g2 /\ Result g2 <> "" /\
    Result g2 = round_message (best (Player g2)) (best (Dealer g2)).
Proof.
  destruct sample_round
    as (_ & g1 & g2 & _ & _ & E2 & _ & _ & S2 & _ & _ & R2).
  destruct (Result_set_iff_RoundOver g2 R2) as [H1 H2].
  exists g1, g2. split; [exact E2|]. split; [apply H1; exact S2 | exact (H2 S2)].
Defined.

Lemma PlayerTurn_shape_witness :
  exists g0 g1,
    Deal g0 = Done g1 /\ State_ g1 = PlayerTurn /\
    length (Cards (Dealer g1)) = 2%nat /\ best (Dealer g1) < 21 /\
    best (Player g1) <= 21.
Proof.
  destruct sample_round
    as (g0 & g1 & _ & _ & E1 & _ & _ & S1 & _ & _ & R1 & _).
  destruct (PlayerTurn_shape g1 R1 S1) as (H1 & H2 & _ & H4).
  exists g0, g1. auto.
Defined.

Lemma forallb_app_inv {A} (p : A -> bool) l1 l2 :
  forallb p (l1 ++ l2) = true -> forallb p l1 = true /\ forallb p l2 = true.
Proof. rewrite forallb_app. apply andb_true_iff. Qed.

(** X19. Standing in a reachable game always ends the round with the
    player's hand untouched and at most 21, and with a dealer who is worth at
    least 17 and at most 26. *)
Theorem stand_leaves_dealer_between_17_and_26 (g : Game) :
  reachable g -> State_ g = PlayerTurn ->
  exists g',
    (forall fuel, (stand_fuel <= fuel)%nat -> PlayerStand fuel g = Done g') /\
    State_ g' = RoundOver /\
    Player g' = Player g /\ best (Player g') <= 21 /\
    17 <= best (Dealer g') <= 26.
Proof.
  intros Hr HS.
  pose proof (sound_game_inv g (reachable_sound g Hr))
    as (Hd & _ & _ & Hv & Hlv & _).
  destruct (PlayerTurn_shape_aux g Hr HS) as (_ & HD21 & _ & HP21).
  assert (sound_hand (Dealer g) = true) as Hsd
    by (apply (short_hand_sound _ 18); [assumption | lia..]).
  destruct (PlayerStand_runs g HS Hd Hsd)
    as (drawn & d' & HR & _ & _ & Hvd & Hk & Hstop & Hb).
  set (g1 := set_Dealer _ _) in HR.
  destruct (finishRound_frame g1) as (FS & _ & FP & FL).
  exists (finishRound g1). rewrite FS, FP, FL.
  change (Player g1) with (Player g).
  change (Dealer g1) with {| Cards := Cards (Dealer g) ++ drawn |}.
  split; [exact HR|]. split; [reflexivity|]. split; [reflexivity|].
  split; [exact HP21|].
  destruct (must_draw_false _ Hstop) as [H17 _]. split; [exact H17|].
  assert (sound_hand {| Cards := Cards (Dealer g) ++ drawn |} = true) as HsF.
  { apply (short_hand_sound _ 18); cbn [Cards]; [|lia..].
    now rewrite forallb_app, Hv, Hvd. }
  destruct drawn as [|c dr _] using rev_ind.
  - rewrite app_nil_r in *. destruct (Dealer g) as [cs]. cbn [Cards] in *. lia.
  - apply forallb_app_inv in Hvd as [Hvdr Hvc].
    cbn [forallb] in Hvc. rewrite andb_true_r in Hvc.
    specialize (Hk (length dr)).
    rewrite length_app, take_app_length in Hk. cbn [length] in Hk.
    specialize (Hk ltac:(lia)).
    assert (sound_hand {| Cards := Cards (Dealer g) ++ dr |} = true) as HsP.
    { apply (short_hand_sound _ 18); cbn [Cards].
      - now rewrite forallb_app, Hv, Hvdr.
      - unfold len in *. rewrite !length_app in Hb. rewrite length_app.
        cbn [length] in Hb. lia.
      - lia. }
    pose proof (must_draw_hard _ HsP Hk) as H16. cbn [Cards] in H16.
    destruct (best_vs_hard _ HsF) as [_ [H|H]]; [lia|].
    rewrite H. cbn [Cards]. rewrite app_assoc, hard_total_app.
    pose proof (hard_points_bounds c Hvc). lia.
Qed.

Lemma stand_leaves_dealer_between_17_and_26_witness :
  exists g1 g2,
    PlayerStand stand_fuel g1 = Done g2 /\ 17 <= best (Dealer g2) <= 26.
Proof.
  destruct sample_round
    as (_ & g1 & g2 & _ & _ & E2 & _ & S1 & _ & _ & R1 & _).
  destruct (stand_leaves_dealer_between_17_and_26 g1 R1 S1)
    as (g' & HR & _ & _ & _ & HB).
  rewrite (HR stand_fuel (Nat.le_refl _)) in E2. injection E2 as <-.
  exists g1, g'. split; [exact (HR stand_fuel (Nat.le_refl _)) | exact HB].
Defined.

(** ** The shuffle *)

(** X20. [shuffle] never indexes outside the slice and never asks
    [Intn] for a non-positive bound; it returns a rearrangement of the same
    cards (none lost, none added, none duplicated) and reads exactly
    [len - 1] numbers from the random source, none at all for an empty or
    one-card slice. *)
Theorem shuffle_is_a_permutation (cs : list Card) (r : Rand) :
  len cs <= Int.max_int ->
  exists cs' r',
    shuffle cs r = Done (cs', r') /\
    cs' ≡ₚ cs /\
    tape r' = tape r /\ pos r' = (pos r + pred (length cs))%nat.
Proof.
  intros Hb. unfold shuffle. pose proof (len_nonneg cs).
  rewrite sub_exact by in_range.
  replace (Z.to_nat (len cs - 1)) with (pred (length cs)) by (unfold len; lia).
  destruct (shuffle_from_rng (pred (length cs)) cs r (Nat.le_refl _) Hb)
    as (cs' & -> & HP).
  eexists _, _. split; [reflexivity|]. repeat split. exact HP.
Qed.

Lemma shuffle_is_a_permutation_witness :
  exists cs' r',
    shuffle [card Spades Ace; card Hearts Two; card Clubs Three] sample_tape
      = Done (cs', r') /\
    cs' ≡ₚ [card Spades Ace; card Hearts Two; card Clubs Three] /\
    pos r' = 2%nat.
Proof.
  destruct (shuffle_is_a_permutation
              [card Spades Ace; card Hearts Two; card Clubs Three] sample_tape)
    as (cs' & r' & H1 & H2 & _ & H4).
  - vm_compute. discriminate.
  - exists cs', r'. split; [exact H1|]. split; [exact H2 | exact H4].
Defined.

(** One step of the loop brings a chosen card to position [i]. *)
Lemma swap_brings cs i j x t :
  cs !! i = Some x -> cs !! j = Some t -> (j <= i)%nat ->
  swap cs (Z.of_nat i) (Z.of_nat j) = Done (<[j := x]> (<[i := t]> cs)).
Proof.
  intros Hi Hj Hji. pose proof (lookup_lt_Some _ _ _ Hi) as Li.
  unfold swap, at_index.
  assert ((0 <=? Z.of_nat j) = true) as -> by (apply Z.leb_le; lia).
  assert ((0 <=? Z.of_nat i) = true) as -> by (apply Z.leb_le; lia).
  rewrite !Nat2Z.id, Hi, Hj. cbn [bind].
  rewrite set_index_Done by (unfold len; lia). cbn [bind].
  rewrite set_index_Done by (unfold len; rewrite length_insert; lia).
  now rewrite !Nat2Z.id.
Qed.

(** The loop from index [i] can turn the first [i + 1] cards into any
    arrangement of them: some choice of random numbers does it. *)
Lemma shuffle_from_reaches i : forall cs target,
  (i < length cs)%nat -> len cs <= Int.max_int ->
  take (S i) target ≡ₚ take (S i) cs ->
  drop (S i) target = drop (S i) cs ->
  exists js : list Z,
    forall r,
      (forall k, (k < i)%nat -> tape r (pos r + k) = nth k js 0) ->
      exists r', shuffle_from i cs r = Done (target, r').
Proof.
  induction i as [|i IH]; intros cs target Hi Hb HP HD.
  - exists []. intros r _. exists r. cbn [shuffle_from]. f_equal. f_equal.
    rewrite <- (take_drop 1 cs), <- (take_drop 1 target), HD. f_equal.
    destruct cs as [|x cs]; [cbn in Hi; lia|].
    destruct target as [|y target].
    { apply Permutation_length in HP. cbn in HP. lia. }
    cbn [take] in *. apply Permutation_singleton_r in HP. exact (eq_sym HP).
  - assert (length target = length cs) as HL.
    { rewrite <- (take_drop (S (S i)) cs), <- (take_drop (S (S i)) target).
      now rewrite !length_app, HD, (Permutation_length HP). }
    destruct (lookup_lt_is_Some_2 target (S i) ltac:(lia)) as [t Ht].
    destruct (lookup_lt_is_Some_2 cs (S i) ltac:(lia)) as [x Hx].
    assert (t ∈ take (S (S i)) cs) as Hin.
    { rewrite <- HP. apply (list_elem_of_lookup_2 _ (S i)).
      rewrite lookup_take_lt by lia. exact Ht. }
    apply list_elem_of_lookup_1 in Hin as [j Hj].
    apply lookup_take_Some in Hj as [Hj Hji].
    set (cs1 := <[j := x]> (<[S i := t]> cs)).
    assert (length cs1 = length cs) as HL1
      by (unfold cs1; now rewrite !length_insert).
    assert (cs1 !! S i = Some t) as Ht1.
    { unfold cs1. destruct (decide (j = S i)) as [->|Hne].
      - rewrite list_lookup_insert_eq by (rewrite length_insert; lia).
        congruence.
      - rewrite list_lookup_insert_ne by exact Hne.
        apply list_lookup_insert_eq. lia. }
    assert (drop (S (S i)) cs1 = drop (S (S i)) cs) as HD1
      by (unfold cs1; now rewrite !drop_insert_lt by lia).
    assert (cs1 ≡ₚ cs) as HP1
      by (unfold cs1; now apply Permutation_insert_swap).
    assert (take (S (S i)) cs1 ≡ₚ take (S (S i)) cs) as HPT.
    { apply (Permutation_app_inv_r (drop (S (S i)) cs)).
      rewrite <- HD1 at 1. now rewrite !take_drop. }
    destruct (IH cs1 target) as [js Hjs].
    + lia.
    + unfold len in *. now rewrite HL1.
    + apply (Permutation_app_inv_r [t]).
      rewrite <- (take_S_r _ _ _ Ht), <- (take_S_r _ _ _ Ht1).
      now rewrite HP, HPT.
    + rewrite (drop_S _ _ _ Ht), (drop_S _ _ _ Ht1). now rewrite HD, HD1.
    + exists (Z.of_nat j :: js). intros r Hr.
      cbn [shuffle_from].
      assert (Z.of_nat (S i) < len cs) as Hlt by (unfold len; lia).
      rewrite add_exact by in_range. unfold Intn.
      assert ((Z.of_nat (S i) + 1 <=? 0) = false) as ->
        by (apply Z.leb_gt; lia).
      cbn [bind].
      pose proof (Hr 0%nat ltac:(lia)) as H0.
      rewrite Nat.add_0_r in H0. cbn [nth] in H0.
      rewrite H0, Z.mod_small by lia.
      rewrite (swap_brings cs (S i) j x t Hx Hj ltac:(lia)). cbn [bind].
      fold cs1. apply Hjs. intros k Hk. cbn [tape pos].
      specialize (Hr (S k) ltac:(lia)). cbn [nth] in Hr.
      rewrite <- Hr. f_equal. lia.
Qed.

(** X21. Every order can come out of [shuffle]: for each rearrangement of
    the cards there is a random source on which [shuffle] returns exactly
    that rearrangement. *)
Theorem shuffle_reaches_every_order (cs target : list Card) :
  target ≡ₚ cs -> len cs <= Int.max_int ->
  exists r r', shuffle cs r = Done (target, r').
Proof.
  intros HP Hb. unfold shuffle. pose proof (len_nonneg cs).
  rewrite sub_exact by in_range.
  replace (Z.to_nat (len cs - 1)) with (pred (length cs)) by (unfold len; lia).
  destruct cs as [|c cs].
  - apply Permutation_nil_r in HP. subst target.
    exists sample_tape, sample_tape. reflexivity.
  - cbn [length pred].
    destruct (shuffle_from_reaches (length cs) (c :: cs) target) as [js Hjs].
    + cbn [length]. lia.
    + exact Hb.
    + rewrite !take_ge; [exact HP | cbn [length]; lia |].
      rewrite (Permutation_length HP). cbn [length]. lia.
    + rewrite !drop_ge; [reflexivity | cbn [length]; lia |].
      rewrite (Permutation_length HP). cbn [length]. lia.
    + set (r := {| tape := fun k => nth k js 0; pos := 0 |}).
      destruct (Hjs r) as [r' Hr']; [reflexivity|].
      exists r, r'. exact Hr'.
Qed.

Lemma shuffle_reaches_every_order_witness :
  exists r r',
    shuffle [card Spades Ace; card Hearts Two; card Clubs Three] r =
    Done ([card Clubs Three; card Spades Ace; card Hearts Two], r').
Proof.
  apply shuffle_reaches_every_order.
  - change [card Spades Ace; card Hearts Two; card Clubs Three]
      with ([card Spades Ace; card Hearts Two] ++ [card Clubs Three]).
    apply Permutation_cons_append.
  - vm_compute. discriminate.
Defined.

(** ** Whole rounds *)

(** X22. After the first deal of a new game every card of the shoe is
    accounted for once: the two hands and the deck together are a
    rearrangement of the [max(shoe, 1)] full decks. *)
Theorem first_deal_accounts_for_the_shoe (shoe0 : Z) (r : Rand) (g g' : Game) :
  52 * shoe0 <= Int.max_int ->
  NewGame shoe0 r = Done g -> Deal g = Done g' ->
  Cards (Player g') ++ Cards (Dealer g') ++ cards (Deck_ g')
  ≡ₚ fresh_cards (Z.max shoe0 1).
Proof.
  intros Hb HN HD. unfold NewGame in HN.
  destruct (NewDeck_Done shoe0 r Hb) as (d & HE & Hs & HP).
  rewrite HE in HN. cbn [bind] in HN. injection HN as HN.
  assert (Deck_ g = d) as HKd by (now subst g).
  pose proof (Permutation_len _ _ HP) as HL.
  rewrite len_fresh_cards in HL by lia.
  assert (exists rest p1 d1 p2 d2, cards d = rest ++ [d2; p2; d1; p1])
    as (rest & p1 & d1 & p2 & d2 & Hc).
  { assert (4 <= length (cards d))%nat as H4 by (unfold len in HL; lia).
    exists (take (length (cards d) - 4) (cards d)).
    pose proof (take_drop (length (cards d) - 4) (cards d)) as Htd.
    pose proof (length_drop (cards d) (length (cards d) - 4)) as Hld.
    destruct (drop (length (cards d) - 4) (cards d))
      as [|a [|b [|c [|e [|]]]]]; cbn [length] in Hld; try lia.
    exists e, c, b, a. now rewrite Htd. }
  rewrite <- HKd in Hc.
  destruct (Deal_last_four g rest p1 d1 p2 d2 Hc) as (g2 & HD2 & HPl & HDl & HK).
  { rewrite HKd, HL, max_int_val in *. lia. }
  rewrite HD2 in HD. injection HD as <-.
  rewrite HPl, HDl, HK. cbn [cards].
  rewrite <- HP, <- HKd, Hc.
  rewrite (Permutation_app_comm rest). cbn [app].
  apply perm_trans with (p1 :: d1 :: p2 :: d2 :: rest).
  - do 1 constructor. apply perm_trans with (d1 :: p2 :: d2 :: rest);
      [apply perm_swap | reflexivity].
  - apply perm_trans with (d2 :: p1 :: d1 :: p2 :: rest).
    + apply perm_trans with (p1 :: d2 :: d1 :: p2 :: rest);
        [|apply perm_swap].
      constructor. apply perm_trans with (d1 :: d2 :: p2 :: rest);
        [constructor; apply perm_swap | apply perm_swap].
    + constructor. apply perm_trans with (p2 :: p1 :: d1 :: rest);
        [|constructor; apply perm_swap].
      apply perm_trans with (p1 :: p2 :: d1 :: rest);
        [constructor; apply perm_swap | apply perm_swap].
Qed.

Lemma first_deal_accounts_for_the_shoe_witness :
  exists g0 g1,
    NewGame 1 sample_tape = Done g0 /\ Deal g0 = Done g1 /\
    Cards (Player g1) ++ Cards (Dealer g1) ++ cards (Deck_ g1)
    ≡ₚ fresh_cards 1.
Proof.
  destruct sample_round as (g0 & g1 & _ & E0 & E1 & _).
  exists g0, g1. split; [exact E0|]. split; [exact E1|].
  apply (first_deal_accounts_for_the_shoe 1 sample_tape g0 g1);
    [rewrite max_int_val; lia | exact E0 | exact E1].
Defined.

Lemma hit_many_off_turn n : forall g,
  State_ g <> PlayerTurn -> hit_many n g = Done g.
Proof.
  induction n as [|n IH]; intros g HS; [reflexivity|].
  cbn [hit_many]. unfold PlayerHit.
  destruct (State_eqb (State_ g) PlayerTurn) eqn:E.
  - apply State_eqb_eq in E. contradiction.
  - cbn [negb bind]. now apply IH.
Qed.

(** [PlayerHit] in the player's turn of a sound game. *)
Lemma PlayerHit_on_turn g :
  sound_game g = true -> State_ g = PlayerTurn ->
  exists c d',
    valid_card c = true /\
    PlayerHit g =
    Done (if 21 <? best (Player (set_Player (set_Deck g d') (Add (Player g) c)))
          then finishRound (set_Player (set_Deck g d') (Add (Player g) c))
          else set_Player (set_Deck g d') (Add (Player g) c)).
Proof.
  intros (Hd & _)%sound_game_inv HS.
  destruct (Draw_sound _ Hd) as (c & d' & HD & Hc & _).
  exists c, d'. split; [exact Hc|].
  unfold PlayerHit. rewrite HS. cbn [State_eqb negb].
  rewrite (player_draws_Done g c d' HD). cbn [bind].
  rewrite Z.gtb_ltb. unfold best. now destruct (21 <? _).
Qed.

Lemma hits_end n : forall g,
  reachable g -> State_ g = PlayerTurn ->
  22 - hard_total (Cards (Player g)) <= Z.of_nat n ->
  exists g',
    hit_many n g = Done g' /\ State_ g' = RoundOver /\ 21 < best (Player g').
Proof.
  induction n as [|n IH]; intros g Hr HS Hn;
    pose proof (reachable_sound g Hr) as Hg;
    pose proof (sound_game_inv g Hg) as (_ & Hp & Hlp & _ & _ & Hpt);
    destruct (Hpt HS) as [_ H21];
    assert (sound_hand (Player g) = true) as Hsp
      by (apply (short_hand_sound _ 22); [assumption | lia..]);
    destruct (best_vs_hard _ Hsp) as [Hhb _].
  - cbn in Hn. lia.
  - destruct (PlayerHit_on_turn g Hg HS) as (c & d' & Hc & HH).
    set (g1 := set_Player (set_Deck g d') (Add (Player g) c)) in HH.
    cbn [hit_many]. rewrite HH. cbn [bind].
    pose proof (reach_hit g _ Hr HH) as Hr1.
    destruct (21 <? best (Player g1)) eqn:E.
    + apply Z.ltb_lt in E.
      destruct (finishRound_frame g1) as (FS & _ & FP & _).
      exists (finishRound g1). rewrite hit_many_off_turn by (rewrite FS; discriminate).
      rewrite FS, FP. auto.
    + apply (IH g1 Hr1); [exact HS|].
      cbn [g1 set_Player Player Add Cards]. rewrite hard_total_app.
      pose proof (hard_points_bounds c Hc). lia.
Qed.

(** X23. The player cannot hit forever: from the player's turn of any
    reachable game, twenty calls of [PlayerHit] in a row always end with the
    round over on a player bust (the calls after the bust change nothing). *)
Theorem twenty_hits_end_the_round (g : Game) :
  reachable g -> State_ g = PlayerTurn ->
  exists g',
    hit_many 20 g = Done g' /\ State_ g' = RoundOver /\ 21 < best (Player g').
Proof.
  intros Hr HS. apply (hits_end 20 g Hr HS).
  pose proof (sound_game_inv g (reachable_sound g Hr)) as (_ & Hp & _).
  pose proof (hard_total_bounds _ Hp) as [[Hlen _] _].
  destruct (PlayerTurn_shape_aux g Hr HS) as (_ & _ & H2 & _).
  unfold len in Hlen. lia.
Qed.

Lemma twenty_hits_end_the_round_witness :
  exists g1 g',
    State_ g1 = PlayerTurn /\ hit_many 20 g1 = Done g' /\
    State_ g' = RoundOver /\ 21 < best (Player g').
Proof.
  destruct sample_round
    as (_ & g1 & _ & _ & _ & _ & _ & S1 & _ & _ & R1 & _).
  destruct (twenty_hits_end_the_round g1 R1 S1) as (g' & H1 & H2 & H3).
  exists g1, g'. auto.
Defined.
